(** * BackgroundProcessingPool: a shallow embedding of the scheduler

    The development follows
    [dbms/src/Storages/MergeTree/BackgroundProcessingPool.cpp].
    The pool is a record; every member function is a function on that
    record which also returns the sequence of synchronisation actions
    (mutex, rwlock, condition variable) it performs, in program order.
    The loop body of a worker is cut where it releases [tasks_mutex]:
    each part is a function of the pool as the worker finds it, so that
    what other threads did in between is part of its argument.
    Line numbers in comments refer to the .cpp file. *)

From Stdlib Require Import ZArith QArith Lia Lqa.
From stdpp Require Import base option list gmap strings.

Local Open Scope Z_scope.

(** ** Data model *)

(** [time_t]: seconds since the epoch, a signed 64-bit integer on the
    platforms the server is built for.  Times are kept as mathematical
    integers; the only place where the width is visible to the code is the
    initial value of [min_time] (line 116). *)
Definition time_t := Z.
Definition time_t_max : time_t := 2 ^ 63 - 1.

(** Modelled from the spec: the constants [sleep_seconds] and
    [sleep_seconds_random_part] are declared in BackgroundProcessingPool.h,
    which is not part of the sources at hand; the spec gives 10.0 and 1.0.
    [sleep_seconds] is used both in integer time arithmetic (line 191) and
    in wait durations (lines 164, 214). *)
Definition sleep_seconds : Z := 10.
Definition sleep_seconds_random_part : Q := 1%Q.

(** Modelled from the spec: the type [Counters], declared in the missing
    header, a map from names to signed integers ([std::map<String, int>]).
    The values are kept as mathematical integers. *)
Abbreviation Counters := (gmap string Z).

(** The value [counters[name]] yields: zero for a name without entry. *)
Definition counter_value (name : string) (c : Counters) : Z :=
  default 0 (c !! name).

(** [counters[name] += delta]: [operator[]] creates a zero entry when the
    key is absent. *)
Definition counter_add (name : string) (delta : Z) (c : Counters) : Counters :=
  <[name := counter_value name c + delta]> c.

(** Modelled from the spec: the type [Task], declared in the missing
    header, a callable that takes a [Context &] and returns [bool].  The
    only thing a callable can do with the pool through its [Context] is
    call [increment]; it ends by returning [done_work] or by throwing.  One
    invocation is therefore described by the tree of these interactions. *)
Inductive Task : Type :=
  | task_return (done_work : bool)
  | task_throw
  | task_increment (name : string) (delta : Z) (rest : Task).

(** Modelled from the spec: [TaskHandle], declared in the missing header,
    a shared-ownership handle ([std::shared_ptr<TaskInfo>]); a handle is
    the identity of the object it owns. *)
Definition TaskHandle := nat.

(** Modelled from the spec: the class [TaskInfo], declared in the missing
    header.  Of its members, [rwlock] appears in the action traces,
    [iterator] is the position of the handle in [tasks], and [pool] is the
    one pool. *)
Record TaskInfo : Type := mkTaskInfo {
  function : Task;
  next_time_to_execute : time_t;
  removed : bool
}.

(** Modelled from the spec: the data members of the pool, declared in the
    missing header: the [std::list<TaskHandle>], the shared counters and
    the shutdown flag; with them the [TaskInfo] objects the handles own
    (an object outlives its list node while a caller keeps a handle). *)
Record Pool : Type := mkPool {
  tasks : list TaskHandle;
  objects : gmap TaskHandle TaskInfo;
  counters : Counters;
  shutdown : bool
}.

(** Synchronisation and scheduling actions of one thread, in program
    order. *)
Inductive mutex : Type := tasks_mutex | counters_mutex.

Inductive action : Type :=
  | lock (m : mutex)
  | unlock (m : mutex)
  | read_lock (h : TaskHandle)
  | read_unlock (h : TaskHandle)
  | write_lock (h : TaskHandle)
  | write_unlock (h : TaskHandle)
  | notify_one
  | notify_all
  | sleep_for (seconds : Q)
  | wait_for (seconds : Q)
  | metric_increment
  | metric_decrement
  | call_function (h : TaskHandle)
  | store_next_time (h : TaskHandle) (v : time_t)
  | log_exception.

(** ** The task list *)

(** [tasks.erase(it)] where [it] is the position of [h]: a handle has one
    node in the list from [addTask] until [removeTask] unlinks it. *)
Fixpoint erase (h : TaskHandle) (l : list TaskHandle) : list TaskHandle :=
  match l with
  | [] => []
  | x :: l' => if decide (x = h) then l' else x :: erase h l'
  end.

(** [tasks.splice(tasks.begin(), tasks, it)] *)
Definition splice_begin (h : TaskHandle) (l : list TaskHandle) : list TaskHandle :=
  h :: erase h l.

(** [tasks.splice(tasks.end(), tasks, it)] *)
Definition splice_end (h : TaskHandle) (l : list TaskHandle) : list TaskHandle :=
  erase h l ++ [h].

(** ** Field updates *)

Definition set_next_time (v : time_t) (ti : TaskInfo) : TaskInfo :=
  mkTaskInfo (function ti) v (removed ti).

Definition set_removed (b : bool) (ti : TaskInfo) : TaskInfo :=
  mkTaskInfo (function ti) (next_time_to_execute ti) b.

Definition with_tasks (l : list TaskHandle) (p : Pool) : Pool :=
  mkPool l (objects p) (counters p) (shutdown p).

Definition with_object (h : TaskHandle) (ti : TaskInfo) (p : Pool) : Pool :=
  mkPool (tasks p) (<[h := ti]> (objects p)) (counters p) (shutdown p).

Definition with_counters (c : Counters) (p : Pool) : Pool :=
  mkPool (tasks p) (objects p) c (shutdown p).

(** ** Pool operations *)

(** [TaskInfo::wake] (lines 18-36).  [current_time] is the value of
    [time(0)] at line 23.  The result is [None] only for a handle that owns
    no object. *)
Definition wake (current_time : time_t) (h : TaskHandle) (p : Pool)
  : option (Pool * list action) :=
  ti ← objects p !! h;
  if removed ti then Some (p, [])
  else
    let p1 := with_tasks (splice_begin h (tasks p)) p in
    if bool_decide (next_time_to_execute ti > current_time)
    then Some (with_object h (set_next_time current_time ti) p1,
               [lock tasks_mutex; store_next_time h current_time;
                unlock tasks_mutex; notify_one])
    else Some (p1, [lock tasks_mutex; unlock tasks_mutex; notify_one]).

(** [getCounter] (lines 49-53).  [counters[name]] on the non-const map
    leaves a zero entry behind for a name that had none. *)
Definition getCounter (name : string) (p : Pool) : Z * Pool * list action :=
  (counter_value name (counters p),
   with_counters (counter_add name 0 (counters p)) p,
   [lock counters_mutex; unlock counters_mutex]).

(** Modelled from the spec: the constructor [TaskInfo(pool, function)],
    defined in the missing header: a new task is ready at second zero and
    not removed. *)
Definition new_TaskInfo (task : Task) : TaskInfo := mkTaskInfo task 0 false.

(** [addTask] (lines 55-67).  [new TaskInfo] yields an object no handle
    owns yet. *)
Definition addTask (task : Task) (p : Pool) : TaskHandle * Pool * list action :=
  let res := fresh (dom (objects p)) in
  (res,
   with_tasks (res :: tasks p) (with_object res (new_TaskInfo task) p),
   [lock tasks_mutex; unlock tasks_mutex; notify_all]).

(** [removeTask] (lines 69-83).  [removed.exchange(true)] stores [true] and
    yields the previous value.  The write lock of lines 75-77 is granted
    once no worker holds the shared lock of the task. *)
Definition removeTask (h : TaskHandle) (p : Pool) : option (Pool * list action) :=
  ti ← objects p !! h;
  let p1 := with_object h (set_removed true ti) p in
  if removed ti then Some (p1, [])
  else Some (with_tasks (erase h (tasks p1)) p1,
             [write_lock h; write_unlock h; lock tasks_mutex; unlock tasks_mutex]).

(** ** The scheduler loop (threadFunction, lines 101-217) *)

(** What one iteration reads from outside the pool: the two words that
    the [uniform_real_distribution] takes from [rng] (line 165 or 175, at
    most one of them per iteration; the first word taken comes first),
    [time(0)] at line 170 and [time(0)] at line 191. *)
Record Readings : Type := mkReadings {
  rng_words : N * N;
  time_170 : time_t;
  time_191 : time_t
}.

(** [rng] is a [std::mt19937]: each call yields a word of 32 bits.  For a
    [double] the library's [generate_canonical] takes two of them, the
    first one the low half, and divides by [2 ^ 64]; durations are exact
    rationals here, the fraction in lowest terms. *)
Definition canonical_bits (w : N * N) : N :=
  (w.1 mod 2 ^ 32 + (w.2 mod 2 ^ 32) * 2 ^ 32)%N.

Definition generate_canonical (w : N * N) : Q :=
  Qred (Qmake (Z.of_N (canonical_bits w)) (2 ^ 64)).

(** [std::uniform_real_distribution<double>(a, b)(rng)]. *)
Definition uniform_real_distribution (a b : Q) (w : N * N) : Q :=
  (a + (b - a) * generate_canonical w)%Q.

(** The draw of lines 165 and 175:
    [std::uniform_real_distribution<double>(0, sleep_seconds_random_part)(rng)]. *)
Definition jitter (r : Readings) : Q :=
  uniform_real_distribution 0 sleep_seconds_random_part (rng_words r).

(** The state of the scan of lines 133-150: the local variables [i]
    (it stays below 102, far from the width of [size_t]), [min_time] and
    [task], and (ghost) the handles that reached line 139, in scan
    order. *)
Record Scan : Type := mkScan {
  scan_i : nat;
  scan_min_time : time_t;
  scan_task : option TaskHandle;
  scan_considered : list TaskHandle
}.

Definition scan_start : Scan := mkScan 0 time_t_max None [].

(** Lines 139-147: a live task is compared with the minimum so far and
    counted. *)
Definition visit (handle : TaskHandle) (ti : TaskInfo) (s : Scan) : Scan :=
  let next := next_time_to_execute ti in
  if bool_decide (next < scan_min_time s)
  then mkScan (S (scan_i s)) next (Some handle) (scan_considered s ++ [handle])
  else mkScan (S (scan_i s)) (scan_min_time s) (scan_task s)
              (scan_considered s ++ [handle]).

(** The [for] loop of lines 134-150 over the remaining list [l]. *)
Fixpoint scan (objs : gmap TaskHandle TaskInfo) (l : list TaskHandle) (s : Scan)
  : option Scan :=
  match l with
  | [] => Some s
  | handle :: l' =>
      ti ← objs !! handle;
      if removed ti then scan objs l' s
      else
        let s1 := visit handle ti s in
        if bool_decide (100 < scan_i s1)%nat then Some s1
        else scan objs l' s1
  end.

(** Lines 116-155: selection under [tasks_mutex], and the move of the
    chosen task to the end of the list. *)
Definition select_task (p : Pool) : option (Pool * Scan * list action) :=
  s ← (if bool_decide (tasks p = []) then Some scan_start
       else scan (objects p) (tasks p) scan_start);
  let p1 :=
    match scan_task s with
    | Some t => with_tasks (splice_end t (tasks p)) p
    | None => p
    end in
  Some (p1, s, [lock tasks_mutex; unlock tasks_mutex]).

(** How the [try] block (lines 114-193) is left. *)
Inductive exit : Type :=
  | end_of_block
  | by_continue
  | by_break
  | by_throw.

(** What the [try] block hands over to the rest of the loop body: the
    pool, the local [counters_diff], the way the block was left, and the
    actions performed. *)
Record Block : Type := mkBlock {
  block_pool : Pool;
  block_counters_diff : Counters;
  block_exit : exit;
  block_trace : list action
}.

(** Lines 162-165: the timed wait of a worker that found no task. *)
Definition idle_wait (r : Readings) : list action :=
  [lock tasks_mutex;
   wait_for (inject_Z sleep_seconds + jitter r)%Q;
   unlock tasks_mutex].

(** Lines 170-176: the timed wait for a task whose time has not come. *)
Definition ready_wait (r : Readings) (min_time : time_t) : list action :=
  let current_time := time_170 r in
  if bool_decide (min_time > current_time)
  then [lock tasks_mutex;
        wait_for (inject_Z (min_time - current_time) + jitter r)%Q;
        unlock tasks_mutex]
  else [].

(** Modelled from the spec: [Context::increment], defined in the missing
    header; it adds [delta] to the shared counter under [counters_mutex]
    and to the entry of the local [counters_diff]. *)
Definition increment (name : string) (delta : Z) (shared diff : Counters)
  : Counters * Counters :=
  (counter_add name delta shared, counter_add name delta diff).

(** One invocation [task->function(context)] (line 187): the counters
    after it, the [counters_diff] it leaves, its result ([None] when it
    threw) and the locking it did. *)
Fixpoint invoke (f : Task) (shared diff : Counters)
  : Counters * Counters * option bool * list action :=
  match f with
  | task_return done_work => (shared, diff, Some done_work, [])
  | task_throw => (shared, diff, None, [])
  | task_increment name delta rest =>
      let '(shared1, diff1) := increment name delta shared diff in
      let '(shared2, diff2, res, tr) := invoke rest shared1 diff1 in
      (shared2, diff2, res, lock counters_mutex :: unlock counters_mutex :: tr)
  end.

(** Lines 178-192: the shared lock on the task, the second look at
    [removed], the invocation and the new ready time.  [rlock] and
    [metric_increment] are released when their scope is left, also by an
    exception.  The sum of line 191 is formed in [double] and converted
    back to [time_t]; on epoch seconds neither conversion rounds. *)
Definition execute (r : Readings) (t : TaskHandle) (p : Pool) : option Block :=
  ti ← objects p !! t;
  if removed ti
  then Some (mkBlock p ∅ by_continue [read_lock t; read_unlock t])
  else
    let '(shared, diff, res, tr) := invoke (function ti) (counters p) ∅ in
    let p1 := with_counters shared p in
    match res with
    | Some done_work =>
        let next := time_191 r + (if done_work then 0 else sleep_seconds) in
        Some (mkBlock (with_object t (set_next_time next ti) p1) diff
                end_of_block
                ([read_lock t; metric_increment; call_function t] ++ tr ++
                 [store_next_time t next; metric_decrement; read_unlock t]))
    | None =>
        Some (mkBlock p1 diff by_throw
                ([read_lock t; metric_increment; call_function t] ++ tr ++
                 [metric_decrement; read_unlock t]))
    end.

(** Lines 157-192: what follows the selection, from the pool as it is
    when the worker gets there. *)
Definition after_select (r : Readings) (s : Scan) (p : Pool) : option Block :=
  if shutdown p then Some (mkBlock p ∅ by_break [])
  else
    match scan_task s with
    | None => Some (mkBlock p ∅ by_continue (idle_wait r))
    | Some t =>
        b ← execute r t p;
        Some (mkBlock (block_pool b) (block_counters_diff b) (block_exit b)
                (ready_wait r (scan_min_time s) ++ block_trace b))
    end.

(** The [try] block (lines 114-193) when no other thread acts between the
    selection and the rest. *)
Definition try_block (r : Readings) (p : Pool) : option Block :=
  '(p1, s, tr1) ← select_task p;
  b ← after_select r s p1;
  Some (mkBlock (block_pool b) (block_counters_diff b) (block_exit b)
          (tr1 ++ block_trace b)).

(** Line 205 for every entry of [counters_diff]. *)
Definition subtract_back (diff shared : Counters) : Counters :=
  map_fold (λ name d acc, counter_add name (- d) acc) shared diff.

(** How an iteration of the [while] loop ends. *)
Inductive control : Type :=
  | loop_break       (* [break]: the thread function returns *)
  | loop_continue    (* [continue]: back to the loop test *)
  | loop_end.        (* end of the body: back to the loop test *)

(** Lines 200-215: the counters are taken back, then the shutdown check
    and the wait after an exception. *)
Definition finish (diff : Counters) (has_exception : bool) (p : Pool)
  : Pool * control * list action :=
  let '(p1, tr1) :=
    if bool_decide (diff = ∅) then (p, [])
    else (with_counters (subtract_back diff (counters p)) p,
          [lock counters_mutex; unlock counters_mutex]) in
  if shutdown p1 then (p1, loop_break, tr1)
  else if has_exception
  then (p1, loop_end,
        tr1 ++ [lock tasks_mutex; wait_for (inject_Z sleep_seconds);
                unlock tasks_mutex])
  else (p1, loop_end, tr1).

(** Lines 194-215: what the loop body does with the outcome of the [try]
    block; the handler of lines 194-198 takes every exception. *)
Definition complete (b : Block) : Pool * control * list action :=
  match block_exit b with
  | by_break => (block_pool b, loop_break, block_trace b)
  | by_continue => (block_pool b, loop_continue, block_trace b)
  | end_of_block =>
      let '(p, c, tr) := finish (block_counters_diff b) false (block_pool b) in
      (p, c, block_trace b ++ tr)
  | by_throw =>
      let '(p, c, tr) := finish (block_counters_diff b) true (block_pool b) in
      (p, c, block_trace b ++ log_exception :: tr)
  end.

(** The body of the [while] loop (lines 110-215). *)
Definition loop_body (r : Readings) (p : Pool)
  : option (Pool * control * list action) :=
  b ← try_block r p;
  Some (complete b).

(** The [while] loop of lines 108-216, followed for as many iterations as
    there are readings. *)
Fixpoint while_not_shutdown (rs : list Readings) (p : Pool)
  : option (Pool * list action) :=
  match rs with
  | [] => Some (p, [])
  | r :: rs' =>
      if shutdown p then Some (p, [])
      else
        '(p1, c, tr) ← loop_body r p;
        match c with
        | loop_break => Some (p1, tr)
        | _ => '(p2, tr') ← while_not_shutdown rs' p1; Some (p2, tr ++ tr')
        end
  end.

(** [threadFunction] (lines 101-217): the sleep of line 106 for the value
    first drawn from [rng], then the loop. *)
Definition threadFunction (first_draw : Q) (rs : list Readings) (p : Pool)
  : option (Pool * list action) :=
  '(p', tr) ← while_not_shutdown rs p;
  Some (p', sleep_for first_draw :: tr).

(** ** Notions used in the statements *)

(** The ready time of the task a handle owns. *)
Definition ready_time (objs : gmap TaskHandle TaskInfo) (h : TaskHandle)
  : option time_t :=
  next_time_to_execute <$> objs !! h.

(** A handle whose task has not been removed. *)
Definition live (objs : gmap TaskHandle TaskInfo) (h : TaskHandle) : Prop :=
  removed <$> objs !! h = Some false.

#[global] Instance live_dec (objs : gmap TaskHandle TaskInfo) (h : TaskHandle)
  : Decision (live objs h).
Proof. unfold live. apply _. Defined.

(** The considered tasks whose ready time equals the minimum found, in
    the order in which the scan met them. *)
Definition ties (objs : gmap TaskHandle TaskInfo) (s : Scan) : list TaskHandle :=
  filter (λ h, ready_time objs h = Some (scan_min_time s)) (scan_considered s).

(** What the scan maintains between two list nodes. *)
Record scan_inv (objs : gmap TaskHandle TaskInfo) (s : Scan) : Prop := {
  inv_count : length (scan_considered s) = scan_i s;
  inv_live : ∀ h, h ∈ scan_considered s → live objs h;
  inv_min : ∀ h, h ∈ scan_considered s →
            ∃ n, ready_time objs h = Some n ∧ scan_min_time s ≤ n;
  inv_task : match scan_task s with
             | Some t => head (ties objs s) = Some t
             | None => scan_min_time s = time_t_max
             end
}.

(** ** Sample pools *)

Definition worker (n : time_t) : TaskInfo := mkTaskInfo (task_return true) n false.
Definition idler (n : time_t) : TaskInfo := mkTaskInfo (task_return false) n false.
Definition retired (n : time_t) : TaskInfo := mkTaskInfo (task_return true) n true.
Definition faulty (n : time_t) : TaskInfo :=
  mkTaskInfo (task_increment "x" 5 task_throw) n false.

(** A pool whose list holds the given objects, in this order, under the
    handles [0], [1], ... *)
Definition pool_of (l : list TaskInfo) : Pool :=
  mkPool (seq 0 (length l)) (list_to_map (zip (seq 0 (length l)) l)) ∅ false.

(** The result of the callable: [Some done_work], or [None] when it
    throws. *)
Fixpoint outcome (f : Task) : option bool :=
  match f with
  | task_return done_work => Some done_work
  | task_throw => None
  | task_increment _ _ rest => outcome rest
  end.

(** Whether the callable calls [Context::increment]. *)
Definition calls_increment (f : Task) : bool :=
  match f with
  | task_increment _ _ _ => true
  | _ => false
  end.

(** Whether every store to a ready time in the trace of one thread lies
    between a lock and the matching unlock of [tasks_mutex]; [held] tells
    whether the thread holds the mutex at the start. *)
Fixpoint stores_guarded (held : bool) (tr : list action) : bool :=
  match tr with
  | [] => true
  | lock tasks_mutex :: tr' => stores_guarded true tr'
  | unlock tasks_mutex :: tr' => stores_guarded false tr'
  | store_next_time _ _ :: tr' => held && stores_guarded held tr'
  | _ :: tr' => stores_guarded held tr'
  end.

(** A list of a hundred tasks ready at second 1 followed by one ready at
    second 0. *)
Definition crowded : Pool := pool_of (replicate 100 (worker 1) ++ [worker 0]).

(** ** The pool between operations *)

(** A pool at rest: no handle has two nodes in the list, and every node
    belongs to a task that is not removed. *)
Definition pool_ok (p : Pool) : Prop :=
  NoDup (tasks p) ∧ ∀ h, h ∈ tasks p → live (objects p) h.

(** [~BackgroundProcessingPool] (lines 85-98) up to the joins: the flag is
    set and every waiting worker is notified. *)
Definition destructor (p : Pool) : Pool * list action :=
  (mkPool (tasks p) (objects p) (counters p) true, [notify_all]).

(** [n] selections in a row (lines 116-155 each), with the tasks they
    choose, in order.  Nothing is executed in between. *)
Fixpoint select_rounds (n : nat) (p : Pool) : option (Pool * list TaskHandle) :=
  match n with
  | O => Some (p, [])
  | S n' =>
      '(p1, s, _) ← select_task p;
      '(p2, chosen) ← select_rounds n' p1;
      Some (p2, option_list (scan_task s) ++ chosen)
  end.

(** ** The pool while a removal is under way *)





(** * FileChecker: the ledger of file sizes

    The second part follows [dbms/include/DB/Common/FileChecker.h].  The
    class keeps, in a property tree, the size of every file it was told
    about under the key ["yandex." + escaped file name + ".size"], and
    compares recorded and real sizes on request. *)

(** ** The library types the class is built on *)

(** [boost::property_tree::ptree]: a node carries a string and an ordered
    list of named children. *)
#[local] Unset Elimination Schemes.
Inductive ptree : Type :=
  | PTree (data : string) (children : list (string * ptree)).
#[local] Set Elimination Schemes.

Definition ptree_data (t : ptree) : string :=
  match t with PTree d _ => d end.

Definition ptree_children (t : ptree) : list (string * ptree) :=
  match t with PTree _ cs => cs end.

Definition empty_ptree : ptree := PTree "" [].

(** [find(key)]: the child of that name (the first one; trees built by
    [put] alone never hold two children of one name). *)
Fixpoint find_child (k : string) (cs : list (string * ptree)) : option ptree :=
  match cs with
  | [] => None
  | (k', c) :: cs' => if decide (k' = k) then Some c else find_child k cs'
  end.

(** The child of name [k] replaced by [c]. *)
Fixpoint replace_child (k : string) (c : ptree) (cs : list (string * ptree))
  : list (string * ptree) :=
  match cs with
  | [] => []
  | (k', c') :: cs' =>
      if decide (k' = k) then (k', c) :: cs' else (k', c') :: replace_child k c cs'
  end.

(** [get_child_optional]: the node a path leads to, component by
    component. *)
Fixpoint walk_path (path : list string) (t : ptree) : option ptree :=
  match path with
  | [] => Some t
  | k :: path' =>
      c ← find_child k (ptree_children t);
      walk_path path' c
  end.

(** [put]: the node the path leads to gets the value; nodes that are
    missing on the way are appended, with empty data, to the children of
    their parent. *)
Fixpoint put_path (path : list string) (v : string) (t : ptree) : ptree :=
  match path with
  | [] => PTree v (ptree_children t)
  | k :: path' =>
      match find_child k (ptree_children t) with
      | Some c =>
          PTree (ptree_data t)
            (replace_child k (put_path path' v c) (ptree_children t))
      | None =>
          PTree (ptree_data t)
            (ptree_children t ++ [(k, put_path path' v empty_ptree)])
      end
  end.

(** A path string is cut at every ['.'] (code 46).  (For a path that is not empty
    and does not end with the separator, as every path of this class:
    they all end with ["size"].) *)
Fixpoint split_path (s : string) : list string :=
  match s with
  | EmptyString => [EmptyString]
  | String c s' =>
      if (Ascii.N_of_ascii c =? 46)%N then EmptyString :: split_path s'
      else match split_path s' with
           | k :: ks => String c k :: ks
           | [] => [String c EmptyString]
           end
  end.

(** [get_optional<std::string>(path)] and [put(path, value)]. *)
Definition get_optional (path : string) (t : ptree) : option string :=
  ptree_data <$> walk_path (split_path path) t.

Definition put (path : string) (v : string) (t : ptree) : ptree :=
  put_path (split_path path) v t.

(** What the member functions can throw. *)
Inductive exception : Type :=
  | file_not_found (path : string)   (* [Poco::File::getSize] *)
  | invalid_argument                 (* [std::stoull] *)
  | out_of_range.                    (* [std::stoull] *)

#[global] Instance exception_eq_dec : EqDecision exception.
Proof. solve_decision. Defined.

(** [std::to_string] of an unsigned integer: its decimal digits. *)
Definition digit_char (d : N) : Ascii.ascii := Ascii.ascii_of_N (48 + d).

Fixpoint to_digits (fuel : nat) (n : N) (acc : string) : string :=
  match fuel with
  | O => acc
  | S fuel' =>
      let acc' := String (digit_char (n mod 10)) acc in
      if (n / 10 =? 0)%N then acc' else to_digits fuel' (n / 10) acc'
  end.

Definition to_string (n : N) : string :=
  to_digits (S (N.to_nat (N.log2 n))) n "".

(** [std::stoull] (base 10): white space is skipped, a sign is accepted,
    then the digits are read up to the first other character.  Without a
    digit the call throws [invalid_argument], with a value that does not
    fit 64 bits [out_of_range]; a value after a minus sign is negated in
    the unsigned type. *)
Definition is_space (c : Ascii.ascii) : bool :=
  let n := Ascii.N_of_ascii c in ((n =? 32) || ((9 <=? n) && (n <=? 13)))%N.

Fixpoint skip_space (s : string) : string :=
  match s with
  | String c s' => if is_space c then skip_space s' else s
  | EmptyString => s
  end.

Definition digit_of (c : Ascii.ascii) : option N :=
  let n := Ascii.N_of_ascii c in
  if ((48 <=? n) && (n <=? 57))%N then Some (n - 48)%N else None.

Fixpoint parse_digits (acc : N) (s : string) : N :=
  match s with
  | String c s' =>
      match digit_of c with
      | Some d => parse_digits (acc * 10 + d) s'
      | None => acc
      end
  | EmptyString => acc
  end.

Definition starts_with_digit (s : string) : bool :=
  match s with
  | String c _ => bool_decide (is_Some (digit_of c))
  | EmptyString => false
  end.

Definition stoull (s : string) : N + exception :=
  let s1 := skip_space s in
  let '(negative, s2) :=
    match s1 with
    | String c s' =>
        if (Ascii.N_of_ascii c =? 43)%N then (false, s')       (* ['+'] *)
        else if (Ascii.N_of_ascii c =? 45)%N then (true, s')   (* ['-'] *)
        else (false, s1)
    | EmptyString => (false, s1)
    end in
  if starts_with_digit s2 then
    let v := parse_digits 0 s2 in
    if (2 ^ 64 <=? v)%N then inr out_of_range
    else inl (if negative then (2 ^ 64 - v) mod 2 ^ 64 else v)%N
  else inr invalid_argument.

(** ** The class *)

(** The functions on names the class takes from elsewhere:
    [escapeForFileName] (declared in DB/Common/escapeForFileName.h, not
    among the sources at hand) and [Poco::Path(path).getFileName()]. *)
Record Names : Type := mkNames {
  escapeForFileName : string → string;
  getFileName : string → string
}.

(** The files on disk: the size of every file that exists, by path
    ([Poco::File::getSize] throws for a path without file). *)
Abbreviation Disk := (gmap string N).

(** The data members [files_info_path] and [files_info]. *)
Record FileChecker : Type := mkFileChecker {
  files_info_path : string;
  files_info : ptree
}.

(** What a member function does besides returning: the error it logs
    (line 70) and the file it writes (lines 85-86). *)
Inductive effect : Type :=
  | log_error (path : string) (real_size expected_size : N)
  | write_xml (path : string) (t : ptree).

(** The constructor (lines 22-27): the tree is read from the file of that
    path if there is one; [stored] is what [read_xml] yields then. *)
Definition new_FileChecker (file_info_path : string) (stored : option ptree)
  : FileChecker :=
  mkFileChecker file_info_path (default empty_ptree stored).

(** [setPath] (lines 29-32). *)
Definition setPath (file_info_path : string) (fc : FileChecker) : FileChecker :=
  mkFileChecker file_info_path (files_info fc).

(** The key of lines 62 and 80. *)
Definition size_key (nm : Names) (file : string) : string :=
  "yandex." ++ escapeForFileName nm (getFileName nm file) ++ ".size".

(** [check(const Poco::File &)] (lines 59-75): the result or the exception,
    and what was logged. *)
Definition check (nm : Names) (disk : Disk) (fc : FileChecker) (file : string)
  : (bool + exception) * list effect :=
  match get_optional (size_key nm file) (files_info fc) with
  | None => (inl true, [])
  | Some file_size =>
      match stoull file_size with
      | inr e => (inr e, [])
      | inl expected_size =>
          match disk !! file with
          | None => (inr (file_not_found file), [])
          | Some real_size =>
              if decide (real_size = expected_size) then (inl true, [])
              else (inl false, [log_error file real_size expected_size])
          end
      end
  end.

(** [check(begin, end)] (lines 49-57): [sizes_are_correct] is the value
    accumulated so far; [&=] evaluates every call. *)
Fixpoint check_range (nm : Names) (disk : Disk) (fc : FileChecker)
    (files : list string) (sizes_are_correct : bool)
  : (bool + exception) * list effect :=
  match files with
  | [] => (inl sizes_are_correct, [])
  | file :: rest =>
      match check nm disk fc file with
      | (inl b, log) =>
          let '(res, log') :=
            check_range nm disk fc rest (sizes_are_correct && b) in
          (res, log ++ log')
      | (inr e, log) => (inr e, log)
      end
  end.

(** [updateTree] (lines 78-81): the object after the call and the
    exception, if any. *)
Definition updateTree (nm : Names) (disk : Disk) (fc : FileChecker) (file : string)
  : FileChecker * option exception :=
  match disk !! file with
  | None => (fc, Some (file_not_found file))
  | Some size =>
      (mkFileChecker (files_info_path fc)
         (put (size_key nm file) (to_string size) (files_info fc)),
       None)
  end.

(** [saveTree] (lines 83-87). *)
Definition saveTree (fc : FileChecker) : list effect :=
  [write_xml (files_info_path fc) (files_info fc)].

(** [update(const Poco::File &)] (lines 36-40). *)
Definition update (nm : Names) (disk : Disk) (fc : FileChecker) (file : string)
  : FileChecker * option exception * list effect :=
  match updateTree nm disk fc file with
  | (fc', None) => (fc', None, saveTree fc')
  | (fc', Some e) => (fc', Some e, [])
  end.

(** [update(begin, end)] (lines 42-47). *)
Fixpoint update_trees (nm : Names) (disk : Disk) (fc : FileChecker)
    (files : list string) : FileChecker * option exception :=
  match files with
  | [] => (fc, None)
  | file :: rest =>
      match updateTree nm disk fc file with
      | (fc', None) => update_trees nm disk fc' rest
      | (fc', Some e) => (fc', Some e)
      end
  end.

Definition update_range (nm : Names) (disk : Disk) (fc : FileChecker)
    (files : list string) : FileChecker * option exception * list effect :=
  match update_trees nm disk fc files with
  | (fc', None) => (fc', None, saveTree fc')
  | (fc', Some e) => (fc', Some e, [])
  end.

(** A name without ['.']. *)
Definition dot_free (s : string) : Prop := split_path s = [s].

(** The escaped name under which a file is recorded. *)
Definition record_name (nm : Names) (file : string) : string :=
  escapeForFileName nm (getFileName nm file).

(** The ledger holds the present size of the file. *)
Definition recorded (nm : Names) (disk : Disk) (fc : FileChecker) (file : string)
  : Prop :=
  ∃ size, disk !! file = Some size ∧
          get_optional (size_key nm file) (files_info fc) = Some (to_string size).

(** Names taken as they are: for paths that are plain names without
    special characters. *)
Definition plain_names : Names := mkNames (λ s, s) (λ s, s).

(** * Properties *)

(** An action that differs from every member of an explicit list. *)
Ltac absent :=
  repeat (apply not_elem_of_cons; split; [discriminate|]);
  apply not_elem_of_nil.

(** ** The task list *)

Lemma erase_cons_Permutation (h : TaskHandle) (l : list TaskHandle) :
  h ∈ l → h :: erase h l ≡ₚ l.
Proof.
  induction l as [|x l IH]; intros Hin; [by apply elem_of_nil in Hin|].
  cbn [erase]. destruct (decide (x = h)) as [->|Hne]; [done|].
  apply elem_of_cons in Hin as [->|Hin]; [done|].
  rewrite Permutation_swap. by rewrite IH.
Qed.

Lemma splice_begin_Permutation (h : TaskHandle) (l : list TaskHandle) :
  h ∈ l → splice_begin h l ≡ₚ l.
Proof. apply erase_cons_Permutation. Qed.

Lemma splice_end_Permutation (h : TaskHandle) (l : list TaskHandle) :
  h ∈ l → splice_end h l ≡ₚ l.
Proof.
  intros Hin. unfold splice_end.
  rewrite <- Permutation_cons_append. by apply erase_cons_Permutation.
Qed.

Lemma splice_end_last (h : TaskHandle) (l : list TaskHandle) :
  last (splice_end h l) = Some h.
Proof. apply last_snoc. Qed.

(** Moving a node changes the position of that node only. *)
Lemma erase_others (h : TaskHandle) (l : list TaskHandle) :
  filter (λ x, x ≠ h) (erase h l) = filter (λ x, x ≠ h) l.
Proof.
  induction l as [|x l IH]; [done|].
  cbn [erase]. destruct (decide (x = h)) as [->|Hne].
  - by rewrite filter_cons_False by (intros Hn; by apply Hn).
  - by rewrite !filter_cons_True, IH by done.
Qed.

(** ** Pool records *)

Lemma with_object_same (h : TaskHandle) (ti : TaskInfo) (p : Pool) :
  objects p !! h = Some ti → with_object h ti p = p.
Proof.
  intros Hh. destruct p as [l o c s]. unfold with_object. cbn in *.
  by rewrite insert_id.
Qed.

Lemma set_removed_same (ti : TaskInfo) :
  removed ti = true → set_removed true ti = ti.
Proof. destruct ti as [f n b]. cbn. by intros ->. Qed.

(** ** removeTask *)

(** C6: a call of removeTask leaves the flag [removed] set; a call that
    finds the flag already set returns at once: it takes no lock and
    leaves the list, every task and the rest of the pool as they were.
    So a second call changes nothing.  The call that finds the flag clear
    takes the write lock and unlinks the node. *)
Theorem removeTask_idempotent (h : TaskHandle) (p : Pool) (ti : TaskInfo) :
  objects p !! h = Some ti →
  (removed ti = true → removeTask h p = Some (p, [])) ∧
  ∃ p' tr,
    removeTask h p = Some (p', tr) ∧
    removed <$> objects p' !! h = Some true ∧
    removeTask h p' = Some (p', []) ∧
    (removed ti = false →
       tasks p' = erase h (tasks p) ∧
       tr = [write_lock h; write_unlock h; lock tasks_mutex; unlock tasks_mutex]).
Proof.
  intros Hh.
  assert (Hset : removed ti = true → removeTask h p = Some (p, [])).
  { intros Hr. unfold removeTask. rewrite Hh. cbn. rewrite Hr.
    by rewrite set_removed_same, with_object_same. }
  split; [done|].
  unfold removeTask at 1. rewrite Hh. cbn.
  destruct (removed ti) eqn:Hr.
  - exists p, []. rewrite set_removed_same, with_object_same by done.
    rewrite Hh. cbn. rewrite Hr. repeat split; auto; discriminate.
  - eexists _, _. split; [reflexivity|]. cbn.
    rewrite lookup_insert_eq. split; [done|]. split; [|done].
    unfold removeTask. cbn. rewrite lookup_insert_eq. cbn.
    do 2 f_equal. apply with_object_same. cbn. by rewrite lookup_insert_eq.
Qed.

Lemma removeTask_idempotent_witness :
  ∃ p',
    removeTask 1%nat (pool_of [worker 0; idler 3]) =
      Some (p', [write_lock 1%nat; write_unlock 1%nat;
                 lock tasks_mutex; unlock tasks_mutex]) ∧
    tasks p' = [0%nat] ∧
    removeTask 1%nat p' = Some (p', []).
Proof.
  destruct (removeTask_idempotent 1%nat (pool_of [worker 0; idler 3]) (idler 3))
    as (_ & p' & tr & H1 & _ & H3 & H4); [reflexivity|].
  destruct H4 as [H4 H5]; [reflexivity|].
  exists p'. rewrite H1, H5. auto.
Defined.

(** ** wake *)

(** C7: wake on a removed task is a no-op.  On a live task it moves the
    task to the front of the list, stores [current_time] as its ready time
    exactly when that was later than [current_time], both between the lock
    and the unlock of [tasks_mutex], and then calls [notify_one] once. *)
Theorem wake_spec (current_time : time_t) (h : TaskHandle) (p : Pool) (ti : TaskInfo) :
  objects p !! h = Some ti →
  (removed ti = true → wake current_time h p = Some (p, [])) ∧
  (removed ti = false →
   ∃ p' tr,
     wake current_time h p = Some (p', tr) ∧
     tasks p' = h :: erase h (tasks p) ∧
     filter (λ x, x ≠ h) (tasks p') = filter (λ x, x ≠ h) (tasks p) ∧
     (h ∈ tasks p → tasks p' ≡ₚ tasks p) ∧
     (next_time_to_execute ti > current_time →
        objects p' = <[h := set_next_time current_time ti]> (objects p)) ∧
     (next_time_to_execute ti ≤ current_time → objects p' = objects p) ∧
     counters p' = counters p ∧
     shutdown p' = shutdown p ∧
     tr = lock tasks_mutex ::
          (if bool_decide (next_time_to_execute ti > current_time)
           then [store_next_time h current_time] else []) ++
          [unlock tasks_mutex; notify_one]).
Proof.
  intros Hh. unfold wake. rewrite Hh. cbn.
  split; intros Hr; rewrite Hr; [done|].
  assert (Hothers : filter (λ x, x ≠ h) (splice_begin h (tasks p)) =
                    filter (λ x, x ≠ h) (tasks p)).
  { unfold splice_begin.
    rewrite filter_cons_False by (intros Hn; by apply Hn).
    apply erase_others. }
  case_bool_decide as Hlate.
  - eexists _, _. split; [reflexivity|]. cbn.
    repeat split; auto using splice_begin_Permutation. lia.
  - eexists _, _. split; [reflexivity|]. cbn.
    repeat split; auto using splice_begin_Permutation. lia.
Qed.

Lemma wake_spec_witness :
  ∃ p',
    wake 5 1%nat (pool_of [worker 0; idler 30; retired 40]) =
      Some (p', [lock tasks_mutex; store_next_time 1%nat 5;
                 unlock tasks_mutex; notify_one]) ∧
    tasks p' = [1; 0; 2]%nat ∧
    next_time_to_execute <$> objects p' !! 1%nat = Some 5.
Proof.
  destruct (wake_spec 5 1%nat (pool_of [worker 0; idler 30; retired 40]) (idler 30))
    as (_ & Hlive); [reflexivity|].
  destruct Hlive as (p' & tr & H1 & H2 & _ & _ & H5 & _ & _ & _ & H9);
    [reflexivity|].
  exists p'. rewrite H1, H9, H2, H5 by (cbn; lia).
  split; [reflexivity|]. split; [reflexivity|].
  by rewrite lookup_insert_eq.
Defined.

(** ** The selection scan *)

Lemma filter_none {A} (P : A → Prop) `{!∀ x, Decision (P x)} (l : list A) :
  (∀ x, x ∈ l → ¬ P x) → filter P l = [].
Proof.
  induction l as [|x l IH]; intros Hall; [done|].
  rewrite filter_cons_False by (apply Hall; left).
  apply IH. intros y Hy. apply Hall. by right.
Qed.

Lemma scan_inv_start (objs : gmap TaskHandle TaskInfo) : scan_inv objs scan_start.
Proof.
  split; cbn; try done; intros h Hh; by apply elem_of_nil in Hh.
Qed.

(** Lines 139-147 keep the invariant: the task met is live, and the
    minimum moves only for a strictly earlier ready time. *)
Lemma scan_inv_visit (objs : gmap TaskHandle TaskInfo) (s : Scan)
    (handle : TaskHandle) (ti : TaskInfo) :
  objs !! handle = Some ti → removed ti = false → scan_inv objs s →
  scan_inv objs (visit handle ti s).
Proof.
  intros Hh Hr [Hcount Hlive Hmin Htask].
  assert (Hready : ready_time objs handle = Some (next_time_to_execute ti)).
  { unfold ready_time. by rewrite Hh. }
  assert (Hl : live objs handle).
  { unfold live. rewrite Hh. cbn. by rewrite Hr. }
  unfold visit. case_bool_decide as Hlt; split; cbn.
  - rewrite length_app. cbn. lia.
  - intros h [Hin| ->%list_elem_of_singleton]%elem_of_app; auto.
  - intros h [Hin| ->%list_elem_of_singleton]%elem_of_app.
    + destruct (Hmin h Hin) as (n & Hn & Hle). exists n. split; [done|lia].
    + exists (next_time_to_execute ti). split; [done|lia].
  - unfold ties. cbn. rewrite filter_app, filter_none.
    + by rewrite filter_cons_True.
    + intros h Hin Heq. destruct (Hmin h Hin) as (n & Hn & Hle).
      rewrite Hn in Heq. injection Heq as ->. lia.
  - rewrite length_app. cbn. lia.
  - intros h [Hin| ->%list_elem_of_singleton]%elem_of_app; auto.
  - intros h [Hin| ->%list_elem_of_singleton]%elem_of_app; [auto|].
    exists (next_time_to_execute ti). split; [done|lia].
  - destruct (scan_task s) as [t|]; [|done].
    unfold ties in *. cbn. rewrite filter_app, head_app. cbn in Htask.
    by rewrite Htask.
Qed.

Lemma visit_i (handle : TaskHandle) (ti : TaskInfo) (s : Scan) :
  scan_i (visit handle ti s) = S (scan_i s).
Proof. unfold visit. by case_bool_decide. Qed.

Lemma visit_considered (handle : TaskHandle) (ti : TaskInfo) (s : Scan) :
  scan_considered (visit handle ti s) = scan_considered s ++ [handle].
Proof. unfold visit. by case_bool_decide. Qed.

Lemma scan_cons (objs : gmap TaskHandle TaskInfo) (handle : TaskHandle)
    (l : list TaskHandle) (s : Scan) (ti : TaskInfo) :
  objs !! handle = Some ti →
  scan objs (handle :: l) s =
    if removed ti then scan objs l s
    else if bool_decide (100 < scan_i (visit handle ti s))%nat
         then Some (visit handle ti s)
         else scan objs l (visit handle ti s).
Proof. intros Hh. cbn [scan]. by rewrite Hh. Qed.

Lemma scan_cons_None (objs : gmap TaskHandle TaskInfo) (handle : TaskHandle)
    (l : list TaskHandle) (s : Scan) :
  objs !! handle = None → scan objs (handle :: l) s = None.
Proof. intros Hh. cbn [scan]. by rewrite Hh. Qed.

Lemma scan_inv_preserved (objs : gmap TaskHandle TaskInfo) (l : list TaskHandle) :
  ∀ s s', scan objs l s = Some s' → scan_inv objs s → scan_inv objs s'.
Proof.
  induction l as [|handle l IH]; intros s s' Hscan Hinv.
  - cbn in Hscan. by injection Hscan as <-.
  - destruct (objs !! handle) as [ti|] eqn:Hh;
      [|by rewrite scan_cons_None in Hscan].
    rewrite (scan_cons _ _ _ _ ti) in Hscan by done.
    destruct (removed ti) eqn:Hr; [by eapply IH|].
    pose proof (scan_inv_visit objs s handle ti Hh Hr Hinv) as Hinv1.
    case_bool_decide as Hcap.
    + by injection Hscan as <-.
    + by eapply IH.
Qed.

(** The handles considered are the first live tasks of the list, in list
    order; the scan leaves the loop after the increment that makes [i]
    exceed 100. *)
Lemma scan_considered_take (objs : gmap TaskHandle TaskInfo) (l : list TaskHandle) :
  ∀ s s', scan objs l s = Some s' → (scan_i s ≤ 100)%nat →
  scan_considered s' =
    scan_considered s ++ take (101 - scan_i s) (filter (live objs) l).
Proof.
  induction l as [|handle l IH]; intros s s' Hscan Hi.
  - cbn in Hscan. injection Hscan as <-.
    by rewrite filter_nil, take_nil, app_nil_r.
  - destruct (objs !! handle) as [ti|] eqn:Hh;
      [|by rewrite scan_cons_None in Hscan].
    rewrite (scan_cons _ _ _ _ ti) in Hscan by done.
    destruct (removed ti) eqn:Hr.
    + rewrite filter_cons_False; [by apply IH|].
      unfold live. rewrite Hh. cbn. rewrite Hr. congruence.
    + rewrite filter_cons_True by (unfold live; rewrite Hh; cbn; by rewrite Hr).
      replace (101 - scan_i s)%nat with (S (100 - scan_i s)) by lia.
      cbn [take]. rewrite visit_i in Hscan.
      case_bool_decide as Hcap.
      * injection Hscan as <-.
        replace (100 - scan_i s)%nat with 0%nat by lia.
        by rewrite take_0, visit_considered.
      * apply IH in Hscan; rewrite ?visit_i; [|lia].
        rewrite Hscan, visit_considered, visit_i, <- app_assoc.
        by replace (101 - S (scan_i s))%nat with (100 - scan_i s)%nat by lia.
Qed.

(** The selection as a whole: what it returns and what it leaves. *)
Lemma select_task_spec (p p' : Pool) (s : Scan) (tr : list action) :
  select_task p = Some (p', s, tr) →
  scan_inv (objects p) s ∧
  scan_considered s = take 101 (filter (live (objects p)) (tasks p)) ∧
  p' = match scan_task s with
       | Some t => with_tasks (splice_end t (tasks p)) p
       | None => p
       end ∧
  tr = [lock tasks_mutex; unlock tasks_mutex].
Proof.
  unfold select_task. intros Hsel.
  destruct (if bool_decide (tasks p = []) then Some scan_start
            else scan (objects p) (tasks p) scan_start) as [s0|] eqn:Hscan;
    [|done].
  cbn in Hsel. injection Hsel as <- <- <-.
  case_bool_decide as Hempty.
  - injection Hscan as <-. rewrite Hempty.
    split; [apply scan_inv_start|]. by rewrite filter_nil, take_nil.
  - split; [eapply scan_inv_preserved; [done|apply scan_inv_start]|].
    split; [|done].
    by rewrite (scan_considered_take _ _ _ _ Hscan) by (cbn; lia).
Qed.

Lemma select_task_objects (p p' : Pool) (s : Scan) (tr : list action) :
  select_task p = Some (p', s, tr) →
  objects p' = objects p ∧ counters p' = counters p ∧ shutdown p' = shutdown p.
Proof.
  intros (_ & _ & -> & _)%select_task_spec. by destruct (scan_task s).
Qed.

(** The chosen task was considered, and its ready time is the minimum. *)
Lemma chosen_considered (objs : gmap TaskHandle TaskInfo) (s : Scan) (t : TaskHandle) :
  scan_inv objs s → scan_task s = Some t →
  t ∈ scan_considered s ∧ ready_time objs t = Some (scan_min_time s).
Proof.
  intros [_ _ _ Htask] Ht. rewrite Ht in Htask.
  apply head_Some_elem_of in Htask. unfold ties in Htask.
  apply list_elem_of_filter in Htask. by destruct Htask.
Qed.

(** The scan never looks at more than 101 live tasks. *)
Lemma select_task_cap (p p' : Pool) (s : Scan) (tr : list action) :
  select_task p = Some (p', s, tr) → (length (scan_considered s) ≤ 101)%nat.
Proof.
  intros (_ & -> & _)%select_task_spec. rewrite length_take. lia.
Qed.

(** The selection returns for every pool whose list nodes own objects. *)
Lemma scan_total (objs : gmap TaskHandle TaskInfo) (l : list TaskHandle) :
  (∀ h, h ∈ l → is_Some (objs !! h)) → ∀ s, is_Some (scan objs l s).
Proof.
  induction l as [|handle l IH]; intros Hall s; [by eexists|].
  destruct (Hall handle) as [ti Hh]; [left|].
  rewrite (scan_cons _ _ _ _ ti) by done.
  assert (Hrest : ∀ h, h ∈ l → is_Some (objs !! h))
    by (intros; apply Hall; by right).
  destruct (removed ti); [by apply IH|].
  case_bool_decide; [by eexists|by apply IH].
Qed.

Lemma select_task_total (p : Pool) :
  (∀ h, h ∈ tasks p → is_Some (objects p !! h)) → is_Some (select_task p).
Proof.
  intros Hall. unfold select_task.
  case_bool_decide; [by eexists|].
  destruct (scan_total (objects p) (tasks p) Hall scan_start) as [s ->].
  by eexists.
Qed.

(** ** Removed tasks *)

(** C1: the selection considers live tasks only, so the task it chooses
    is not removed; and a worker that finds [removed] set once it holds
    the shared lock of the chosen task releases the lock and continues:
    the callable is not invoked, nothing is stored, and the rest of the
    loop body is skipped.  [q] is the pool as the worker finds it when it
    has the lock. *)
Theorem removed_task_not_run (r : Readings) (p p1 q : Pool) (s : Scan)
    (tr : list action) (t : TaskHandle) (ti : TaskInfo) :
  select_task p = Some (p1, s, tr) →
  scan_task s = Some t →
  objects q !! t = Some ti →
  removed ti = true →
  live (objects p) t ∧
  (∀ h, h ∈ scan_considered s → live (objects p) h) ∧
  execute r t q = Some (mkBlock q ∅ by_continue [read_lock t; read_unlock t]) ∧
  (shutdown q = false →
   ∃ b, after_select r s q = Some b ∧
        (∀ h, call_function h ∉ block_trace b) ∧
        complete b = (q, loop_continue, block_trace b)).
Proof.
  intros Hsel Ht Hq Hr.
  destruct (select_task_spec _ _ _ _ Hsel) as (Hinv & _).
  destruct (chosen_considered _ _ _ Hinv Ht) as [Hin _].
  assert (Hexec : execute r t q =
                  Some (mkBlock q ∅ by_continue [read_lock t; read_unlock t])).
  { unfold execute. rewrite Hq. cbn. by rewrite Hr. }
  repeat split.
  - by apply (inv_live _ _ Hinv).
  - apply (inv_live _ _ Hinv).
  - done.
  - intros Hup. unfold after_select. rewrite Hup, Ht, Hexec. cbn.
    eexists. split; [reflexivity|]. cbn. split; [|done].
    intros h. unfold ready_wait. case_bool_decide; cbn; absent.
Qed.

Lemma removed_task_not_run_witness :
  live (objects (pool_of [retired 0; idler 30])) 1%nat ∧
  execute (mkReadings (0, 2 ^ 31)%N 5 7) 1%nat (pool_of [retired 0; retired 30]) =
    Some (mkBlock (pool_of [retired 0; retired 30]) ∅ by_continue
            [read_lock 1%nat; read_unlock 1%nat]).
Proof.
  destruct (removed_task_not_run (mkReadings (0, 2 ^ 31)%N 5 7)
              (pool_of [retired 0; idler 30])
              (with_tasks [0; 1]%nat (pool_of [retired 0; idler 30]))
              (pool_of [retired 0; retired 30])
              (mkScan 1 30 (Some 1%nat) [1%nat])
              [lock tasks_mutex; unlock tasks_mutex] 1%nat (retired 30))
    as (H1 & _ & H3 & _); try reflexivity.
  split; [exact H1|exact H3].
Defined.

(** ** The selection cap *)

(** C8, at a list of 101 live tasks of which only the last is ready
    earliest: the scan considers all 101 and chooses the 101st. *)
Theorem scan_considers_101 :
  ∃ p' s tr,
    select_task crowded = Some (p', s, tr) ∧
    scan_task s = Some 100%nat ∧
    scan_min_time s = 0 ∧
    scan_i s = 101%nat ∧
    length (scan_considered s) = 101%nat.
Proof.
  destruct (select_task crowded) as [[[p' s] tr]|] eqn:Hsel.
  - exists p', s, tr. split; [done|].
    revert Hsel. vm_compute. intros [= <- <- <-]. done.
  - revert Hsel. vm_compute. discriminate.
Qed.

(** ** The tie-break *)

(** C9: the chosen task is moved to the end of the list, the other nodes
    keep their order; its ready time is the least among the tasks
    considered, and among those with that ready time it is the one the
    scan met first. *)
Theorem chosen_first_tie_moved_last (p p' : Pool) (s : Scan) (tr : list action)
    (t : TaskHandle) :
  select_task p = Some (p', s, tr) →
  scan_task s = Some t →
  tasks p' = erase t (tasks p) ++ [t] ∧
  last (tasks p') = Some t ∧
  tasks p' ≡ₚ tasks p ∧
  filter (λ x, x ≠ t) (tasks p') = filter (λ x, x ≠ t) (tasks p) ∧
  ready_time (objects p) t = Some (scan_min_time s) ∧
  (∀ h, h ∈ scan_considered s →
        ∃ n, ready_time (objects p) h = Some n ∧ scan_min_time s ≤ n) ∧
  head (ties (objects p) s) = Some t.
Proof.
  intros Hsel Ht.
  destruct (select_task_spec _ _ _ _ Hsel) as (Hinv & Hcons & -> & _).
  destruct (chosen_considered _ _ _ Hinv Ht) as [Hin Hready].
  rewrite Ht. cbn.
  assert (Hlist : t ∈ tasks p).
  { rewrite Hcons in Hin. apply elem_of_take in Hin as (i & Hi & _).
    apply list_elem_of_lookup_2 in Hi.
    apply list_elem_of_filter in Hi. by destruct Hi. }
  repeat split.
  - apply splice_end_last.
  - by apply splice_end_Permutation.
  - unfold splice_end. rewrite filter_app, erase_others.
    rewrite (filter_cons_False _ t) by (intros Hn; by apply Hn).
    by rewrite filter_nil, app_nil_r.
  - done.
  - apply (inv_min _ _ Hinv).
  - pose proof (inv_task _ _ Hinv) as Htask. by rewrite Ht in Htask.
Qed.

Lemma chosen_first_tie_moved_last_witness :
  ∃ p' s,
    select_task (pool_of [idler 4; worker 2; idler 2]) =
      Some (p', s, [lock tasks_mutex; unlock tasks_mutex]) ∧
    scan_task s = Some 1%nat ∧
    tasks p' = [0; 2; 1]%nat ∧
    head (ties (objects (pool_of [idler 4; worker 2; idler 2])) s) = Some 1%nat.
Proof.
  eexists _, _. split; [reflexivity|]. split; [reflexivity|].
  destruct (chosen_first_tie_moved_last (pool_of [idler 4; worker 2; idler 2])
              _ _ _ 1%nat eq_refl eq_refl) as (H1 & _ & _ & _ & _ & _ & H7).
  split; [exact H1|exact H7].
Defined.

(** C9 as the claim has it fails: of two tasks with the same ready time
    the scan chooses the one it met first, not the one it met last. *)
Lemma most_recent_tie_counterexample :
  ¬ (∀ p' s tr t,
       select_task (pool_of [worker 0; worker 0]) = Some (p', s, tr) →
       scan_task s = Some t →
       last (ties (objects (pool_of [worker 0; worker 0])) s) = Some t).
Proof.
  intros Hclaim.
  specialize (Hclaim _ _ _ 0%nat eq_refl eq_refl).
  vm_compute in Hclaim. discriminate.
Qed.

(** ** One invocation *)

(** The invocation ends the way the callable ends, and all it does with
    the pool's locks is to take and release [counters_mutex]. *)
Lemma invoke_outcome (f : Task) :
  ∀ shared diff, ∃ shared' diff' tr,
    invoke f shared diff = (shared', diff', outcome f, tr) ∧
    Forall (λ a, a = lock counters_mutex ∨ a = unlock counters_mutex) tr.
Proof.
  induction f as [done_work| |name delta rest IH]; intros shared diff.
  - by exists shared, diff, [].
  - by exists shared, diff, [].
  - cbn.
    destruct (IH (counter_add name delta shared) (counter_add name delta diff))
      as (shared' & diff' & tr & -> & Htr).
    eexists _, _, _. split; [reflexivity|].
    apply Forall_cons. split; [by left|].
    apply Forall_cons. split; [by right|done].
Qed.

Lemma invoke_no_increment (f : Task) (shared diff : Counters) :
  calls_increment f = false →
  invoke f shared diff = (shared, diff, outcome f, []).
Proof. by destruct f. Qed.

Lemma with_counters_same (p : Pool) : with_counters (counters p) p = p.
Proof. by destruct p. Qed.

(** [execute] on a live task whose callable returns. *)
Lemma execute_returns (r : Readings) (t : TaskHandle) (q : Pool) (ti : TaskInfo)
    (done_work : bool) :
  objects q !! t = Some ti → removed ti = false →
  outcome (function ti) = Some done_work →
  ∃ shared diff tr,
    invoke (function ti) (counters q) ∅ = (shared, diff, Some done_work, tr) ∧
    execute r t q =
      Some (mkBlock
              (with_object t
                 (set_next_time
                    (time_191 r + (if done_work then 0 else sleep_seconds)) ti)
                 (with_counters shared q))
              diff end_of_block
              ([read_lock t; metric_increment; call_function t] ++ tr ++
               [store_next_time t
                  (time_191 r + (if done_work then 0 else sleep_seconds));
                metric_decrement; read_unlock t])).
Proof.
  intros Hq Hr Hout.
  destruct (invoke_outcome (function ti) (counters q) ∅)
    as (shared & diff & tr & Hinv & _).
  rewrite Hout in Hinv.
  exists shared, diff, tr. split; [done|].
  unfold execute. rewrite Hq. cbn. by rewrite Hr, Hinv.
Qed.

(** [execute] on a live task whose callable throws. *)
Lemma execute_throws (r : Readings) (t : TaskHandle) (q : Pool) (ti : TaskInfo) :
  objects q !! t = Some ti → removed ti = false →
  outcome (function ti) = None →
  ∃ shared diff tr,
    invoke (function ti) (counters q) ∅ = (shared, diff, None, tr) ∧
    Forall (λ a, a = lock counters_mutex ∨ a = unlock counters_mutex) tr ∧
    execute r t q =
      Some (mkBlock (with_counters shared q) diff by_throw
              ([read_lock t; metric_increment; call_function t] ++ tr ++
               [metric_decrement; read_unlock t])).
Proof.
  intros Hq Hr Hout.
  destruct (invoke_outcome (function ti) (counters q) ∅)
    as (shared & diff & tr & Hinv & Htr).
  rewrite Hout in Hinv.
  exists shared, diff, tr. split; [done|]. split; [done|].
  unfold execute. rewrite Hq. cbn. by rewrite Hr, Hinv.
Qed.

(** ** The ready time after a run *)

(** C5: when the callable of a live task returns [done_work], the worker
    stores [time(0) + (done_work ? 0 : sleep_seconds)] as the ready time
    of the task: the present time after useful work, [sleep_seconds]
    later otherwise. *)
Theorem ready_time_after_run (r : Readings) (t : TaskHandle) (q : Pool)
    (ti : TaskInfo) (done_work : bool) :
  objects q !! t = Some ti →
  removed ti = false →
  outcome (function ti) = Some done_work →
  ∃ b,
    execute r t q = Some b ∧
    block_exit b = end_of_block ∧
    ready_time (objects (block_pool b)) t =
      Some (time_191 r + (if done_work then 0 else sleep_seconds)) ∧
    store_next_time t (time_191 r + (if done_work then 0 else sleep_seconds))
      ∈ block_trace b ∧
    (done_work = true →
       ready_time (objects (block_pool b)) t = Some (time_191 r)) ∧
    (done_work = false →
       ready_time (objects (block_pool b)) t = Some (time_191 r + sleep_seconds)) ∧
    (∀ h, h ≠ t → objects (block_pool b) !! h = objects q !! h) ∧
    tasks (block_pool b) = tasks q.
Proof.
  intros Hq Hr Hout.
  destruct (execute_returns r t q ti done_work Hq Hr Hout)
    as (shared & diff & tr & _ & ->).
  eexists. split; [reflexivity|]. cbn.
  assert (Hready : ready_time
            (<[t := set_next_time
                      (time_191 r + (if done_work then 0 else sleep_seconds)) ti]>
               (objects q)) t =
          Some (time_191 r + (if done_work then 0 else sleep_seconds))).
  { unfold ready_time. by rewrite lookup_insert_eq. }
  repeat split; try done.
  - do 3 right. apply elem_of_app. right. left.
  - intros ->. rewrite Hready. f_equal. lia.
  - by intros ->.
  - intros h Hne. by rewrite lookup_insert_ne.
Qed.

Lemma ready_time_after_run_witness :
  ∃ b,
    execute (mkReadings (0, 2 ^ 31)%N 5 7) 1%nat (pool_of [worker 0; idler 3]) = Some b ∧
    ready_time (objects (block_pool b)) 1%nat = Some 17.
Proof.
  destruct (ready_time_after_run (mkReadings (0, 2 ^ 31)%N 5 7) 1%nat
              (pool_of [worker 0; idler 3]) (idler 3) false)
    as (b & H1 & _ & _ & _ & _ & H6 & _); try reflexivity.
  exists b. split; [exact H1|]. by apply H6.
Defined.

(** ** Taking the counters back *)

Lemma subtract_back_empty (shared : Counters) : subtract_back ∅ shared = shared.
Proof. unfold subtract_back. apply map_fold_empty. Qed.

(** Every entry of [counters_diff] is subtracted from the entry of the
    same name; the other entries stay. *)
Lemma subtract_back_lookup (diff shared : Counters) (name : string) :
  subtract_back diff shared !! name =
    match diff !! name with
    | Some d => Some (counter_value name shared - d)
    | None => shared !! name
    end.
Proof.
  unfold subtract_back. revert name.
  apply (map_fold_weak_ind
           (λ (acc : Counters) (m : Counters), ∀ name,
              acc !! name = match m !! name with
                            | Some d => Some (counter_value name shared - d)
                            | None => shared !! name
                            end)).
  - intros name. by rewrite lookup_empty.
  - intros i d m acc Hfresh IH name. unfold counter_add, counter_value.
    destruct (decide (i = name)) as [->|Hne].
    + rewrite !lookup_insert_eq, IH, Hfresh. f_equal; lia.
    + rewrite !lookup_insert_ne by done. apply IH.
Qed.

(** Lines 200-215 in one equation. *)
Lemma finish_spec (diff : Counters) (has_exception : bool) (p : Pool) :
  finish diff has_exception p =
    (with_counters (subtract_back diff (counters p)) p,
     (if shutdown p then loop_break else loop_end),
     (if bool_decide (diff = ∅) then []
      else [lock counters_mutex; unlock counters_mutex]) ++
     (if shutdown p then []
      else if has_exception
           then [lock tasks_mutex; wait_for (inject_Z sleep_seconds);
                 unlock tasks_mutex]
           else [])).
Proof.
  unfold finish. case_bool_decide as Hdiff.
  - rewrite Hdiff, subtract_back_empty, with_counters_same.
    by destruct (shutdown p), has_exception.
  - cbn. by destruct (shutdown p), has_exception.
Qed.

(** C2: after the [try] block, whether it ended normally or by an
    exception of the callable, the loop body subtracts every entry of
    [counters_diff] from the shared counter of the same name, between a
    lock and an unlock of [counters_mutex], and touches no other counter.
    Hence an iteration whose task does not call [increment] leaves the
    shared counters as they were. *)
Theorem counters_taken_back :
  (∀ b : Block,
     block_exit b = end_of_block ∨ block_exit b = by_throw →
     ∃ p' c tr,
       complete b = (p', c, block_trace b ++ tr) ∧
       (∀ name d, block_counters_diff b !! name = Some d →
          counters p' !! name =
            Some (counter_value name (counters (block_pool b)) - d)) ∧
       (∀ name, block_counters_diff b !! name = None →
          counters p' !! name = counters (block_pool b) !! name) ∧
       (block_counters_diff b ≠ ∅ →
          ∃ tr1 tr2,
            tr = tr1 ++ [lock counters_mutex; unlock counters_mutex] ++ tr2 ∧
            (tr1 = [] ∨ tr1 = [log_exception]))) ∧
  (∀ (r : Readings) (p p1 p' : Pool) (s : Scan) (tr1 tr : list action)
     (c : control),
     select_task p = Some (p1, s, tr1) →
     (∀ t ti, scan_task s = Some t → objects p !! t = Some ti →
              calls_increment (function ti) = false) →
     loop_body r p = Some (p', c, tr) →
     counters p' = counters p) ∧
  (∀ (r : Readings) (s : Scan) (q : Pool) (b : Block),
     after_select r s q = Some b →
     block_exit b = by_continue ∨ block_exit b = by_break →
     block_counters_diff b = ∅).
Proof.
  split; [|split].
  - intros b Hexit. unfold complete.
    assert (Hlook : ∀ name,
              subtract_back (block_counters_diff b) (counters (block_pool b))
                !! name =
              match block_counters_diff b !! name with
              | Some d => Some (counter_value name (counters (block_pool b)) - d)
              | None => counters (block_pool b) !! name
              end) by apply subtract_back_lookup.
    destruct Hexit as [-> | ->]; rewrite finish_spec;
      eexists _, _, _; (split; [reflexivity|]); cbn.
    + split; [intros name d Hd; by rewrite Hlook, Hd|].
      split; [intros name Hd; by rewrite Hlook, Hd|].
      intros Hne. exists []. eexists. split; [|by left].
      by rewrite bool_decide_eq_false_2.
    + split; [intros name d Hd; by rewrite Hlook, Hd|].
      split; [intros name Hd; by rewrite Hlook, Hd|].
      intros Hne. exists [log_exception]. eexists. split; [|by right].
      by rewrite bool_decide_eq_false_2.
  - intros r p p1 p' s tr1 tr c Hsel Hquiet Hbody.
    destruct (select_task_objects _ _ _ _ Hsel) as (Hobj & Hcnt & _).
    unfold loop_body, try_block in Hbody. rewrite Hsel in Hbody. cbn in Hbody.
    unfold after_select in Hbody.
    destruct (shutdown p1); [by injection Hbody as <- _ _|].
    destruct (scan_task s) as [t|] eqn:Ht; [|by injection Hbody as <- _ _].
    unfold execute in Hbody. rewrite Hobj in Hbody.
    destruct (objects p !! t) as [ti|] eqn:Hti; [|done]. cbn in Hbody.
    destruct (removed ti); [by injection Hbody as <- _ _|].
    rewrite (invoke_no_increment _ _ _ (Hquiet t ti eq_refl Hti)) in Hbody.
    destruct (outcome (function ti)) as [done_work|]; cbn in Hbody;
      unfold complete in Hbody; cbn in Hbody;
      rewrite finish_spec, subtract_back_empty in Hbody;
      injection Hbody as <- _ _; by cbn.
  - intros r s q b Hafter Hexit. unfold after_select in Hafter.
    destruct (shutdown q); [by injection Hafter as <-|].
    destruct (scan_task s) as [t|]; [|by injection Hafter as <-].
    unfold execute in Hafter.
    destruct (objects q !! t) as [ti|]; [|done]. cbn in Hafter.
    destruct (removed ti); [by injection Hafter as <-|].
    destruct (invoke (function ti) (counters q) ∅) as [[[shared diff] res] tr].
    destruct res; injection Hafter as <-; cbn in Hexit;
      by destruct Hexit.
Qed.

Lemma counters_taken_back_witness :
  ∃ p' c tr,
    loop_body (mkReadings (0, 2 ^ 31)%N 5 7) (pool_of [faulty 0]) = Some (p', c, tr) ∧
    counters p' !! "x" = Some 0 ∧
    ∀ p2 c2 tr2,
      loop_body (mkReadings (0, 2 ^ 31)%N 5 7) (pool_of [idler 0]) = Some (p2, c2, tr2) →
      counters p2 = ∅.
Proof.
  eexists _, _, _. split; [reflexivity|]. split.
  - destruct (proj1 counters_taken_back
                (mkBlock (with_counters {["x" := 5]} (pool_of [faulty 0]))
                   {["x" := 5]} by_throw []))
      as (p' & c & tr & Hc & Hsub & _); [by right|].
    vm_compute in Hc. injection Hc as <- _ _.
    apply (Hsub "x" 5). reflexivity.
  - intros p2 c2 tr2 Hbody.
    apply (proj1 (proj2 counters_taken_back) (mkReadings (0, 2 ^ 31)%N 5 7) (pool_of [idler 0])
             _ p2 _ _ tr2 c2 eq_refl); [|exact Hbody].
    intros t ti [= <-] Hti. vm_compute in Hti. by injection Hti as <-.
Defined.

(** ** A callable that throws *)

Lemma counter_locking_no_store (tr : list action) :
  Forall (λ a, a = lock counters_mutex ∨ a = unlock counters_mutex) tr →
  ∀ h v, store_next_time h v ∉ tr.
Proof.
  intros Htr h v Hin. rewrite Forall_forall in Htr.
  by destruct (Htr _ Hin).
Qed.

(** C4: when the callable of a live task throws, the [try] block is left
    by the exception with no ready time stored, the handler of the loop
    body takes the exception and logs it, and the list and every task are
    as before, so the task stays scheduled.  Unless [shutdown] ends the
    loop, the last thing the iteration does is one wait on [wake_event]
    of [sleep_seconds], with no random part. *)
Theorem exception_caught_and_damped (r : Readings) (t : TaskHandle) (q : Pool)
    (ti : TaskInfo) :
  objects q !! t = Some ti →
  removed ti = false →
  outcome (function ti) = None →
  ∃ b,
    execute r t q = Some b ∧
    block_exit b = by_throw ∧
    (∀ h v, store_next_time h v ∉ block_trace b) ∧
    ∃ p' c tr,
      complete b = (p', c, block_trace b ++ log_exception :: tr) ∧
      objects p' = objects q ∧
      tasks p' = tasks q ∧
      (∀ h v, store_next_time h v ∉ tr) ∧
      (shutdown q = true → c = loop_break) ∧
      (shutdown q = false →
         c = loop_end ∧
         ∃ tr0,
           tr = tr0 ++ [lock tasks_mutex; wait_for (inject_Z sleep_seconds);
                        unlock tasks_mutex] ∧
           ∀ d, wait_for d ∉ tr0).
Proof.
  intros Hq Hr Hout.
  destruct (execute_throws r t q ti Hq Hr Hout)
    as (shared & diff & tr & _ & Htr & ->).
  eexists. split; [reflexivity|]. cbn. split; [done|]. split.
  { intros h v. do 3 (apply not_elem_of_cons; split; [discriminate|]).
    apply not_elem_of_app. split; [by apply counter_locking_no_store|absent]. }
  unfold complete. cbn. rewrite finish_spec. cbn.
  eexists _, _, _. split; [reflexivity|]. cbn.
  split; [done|]. split; [done|]. split; [|split].
  - intros h v. apply not_elem_of_app.
    split; [case_bool_decide|destruct (shutdown q)]; absent.
  - by intros ->.
  - intros ->. split; [done|]. eexists. split; [reflexivity|].
    intros d. case_bool_decide; absent.
Qed.

Lemma exception_caught_and_damped_witness :
  ∃ b p' tr0,
    execute (mkReadings (0, 2 ^ 31)%N 5 7) 0%nat (pool_of [faulty 0]) = Some b ∧
    block_exit b = by_throw ∧
    complete b =
      (p', loop_end,
       block_trace b ++ log_exception :: tr0 ++
       [lock tasks_mutex; wait_for (inject_Z sleep_seconds); unlock tasks_mutex]) ∧
    objects p' = objects (pool_of [faulty 0]) ∧
    tasks p' = [0%nat].
Proof.
  destruct (exception_caught_and_damped (mkReadings (0, 2 ^ 31)%N 5 7) 0%nat
              (pool_of [faulty 0]) (faulty 0))
    as (b & Hb & Hexit & _ & p' & c & tr & Hc & Hobj & Htasks & _ & _ & Hup);
    try reflexivity.
  destruct Hup as (-> & tr0 & -> & _); [reflexivity|].
  exists b, p', tr0. auto.
Defined.

(** ** The wait for a task that is not yet ready *)













(** ** Stores to the ready time and [tasks_mutex] *)

Lemma stores_guarded_counter_locking (tr rest : list action) (held : bool) :
  Forall (λ a, a = lock counters_mutex ∨ a = unlock counters_mutex) tr →
  stores_guarded held (tr ++ rest) = stores_guarded held rest.
Proof.
  induction 1 as [|a tr [-> | ->] _ IH]; [done| |]; apply IH.
Qed.

(** [wake] stores the ready time while it holds [tasks_mutex]. *)
Lemma wake_stores_guarded (current_time : time_t) (h : TaskHandle) (p p' : Pool)
    (tr : list action) :
  wake current_time h p = Some (p', tr) → stores_guarded false tr = true.
Proof.
  unfold wake. destruct (objects p !! h) as [ti|]; [|done]. cbn.
  destruct (removed ti); [by intros [= _ <-]|].
  case_bool_decide; by intros [= _ <-].
Qed.

(** The worker stores the ready time of line 191 while it holds the shared
    lock of the task and nothing else. *)
Lemma execute_store_unguarded (r : Readings) (t : TaskHandle) (q : Pool)
    (ti : TaskInfo) (done_work : bool) (b : Block) :
  objects q !! t = Some ti → removed ti = false →
  outcome (function ti) = Some done_work →
  execute r t q = Some b →
  stores_guarded false (block_trace b) = false.
Proof.
  intros Hq Hr Hout Hexec.
  destruct (invoke_outcome (function ti) (counters q) ∅)
    as (shared & diff & tr & Hinv & Htr).
  unfold execute in Hexec. rewrite Hq in Hexec. cbn in Hexec.
  rewrite Hr, Hinv, Hout in Hexec. injection Hexec as <-. cbn.
  by rewrite stores_guarded_counter_locking.
Qed.

(** Who writes a ready time: [removeTask], [addTask] and the selection
    leave the ready time of every task as it is, and [wake] only lowers
    that of its own task. *)
Lemma removeTask_ready_time (h h' : TaskHandle) (p p' : Pool) (tr : list action) :
  removeTask h p = Some (p', tr) →
  ready_time (objects p') h' = ready_time (objects p) h'.
Proof.
  unfold removeTask, ready_time.
  destruct (objects p !! h) as [ti|] eqn:Hh; [|done]. cbn.
  assert (Hsame : next_time_to_execute <$>
                    <[h := set_removed true ti]> (objects p) !! h' =
                  next_time_to_execute <$> objects p !! h').
  { rewrite lookup_insert. destruct (decide (h = h')) as [<-|]; [|done].
    by rewrite Hh. }
  destruct (removed ti); by intros [= <- _].
Qed.

Lemma addTask_ready_time (task : Task) (h' : TaskHandle) (p : Pool) :
  is_Some (objects p !! h') →
  ready_time (objects (addTask task p).1.2) h' = ready_time (objects p) h'.
Proof.
  intros Hsome. unfold addTask, ready_time. cbn.
  rewrite lookup_insert_ne; [done|].
  intros <-. apply elem_of_dom in Hsome. by apply is_fresh in Hsome.
Qed.

Lemma wake_ready_time (current_time : time_t) (h h' : TaskHandle) (p p' : Pool)
    (tr : list action) (n : time_t) :
  wake current_time h p = Some (p', tr) →
  ready_time (objects p) h' = Some n →
  ∃ n', ready_time (objects p') h' = Some n' ∧ n' ≤ n ∧ (h' ≠ h → n' = n).
Proof.
  unfold wake, ready_time.
  destruct (objects p !! h) as [ti|] eqn:Hh; [|done]. cbn.
  destruct (removed ti); [intros [= <- _] Hn; exists n; by rewrite Hn|].
  case_bool_decide as Hlate; intros [= <- _] Hn; cbn.
  - rewrite lookup_insert. destruct (decide (h = h')) as [<-|Hne].
    + rewrite Hh in Hn. injection Hn as <-.
      exists current_time. cbn. split; [done|]. split; [lia|done].
    + exists n. by rewrite Hn.
  - exists n. by rewrite Hn.
Qed.

(** C10, at a pool with one live task that returns [true]: the iteration
    stores the new ready time after it has released [tasks_mutex], while
    [wake] on the same task stores between lock and unlock. *)
Theorem store_outside_tasks_mutex :
  ∃ p' tr p'' tr',
    loop_body (mkReadings (0, 2 ^ 31)%N 5 7) (pool_of [worker 0]) =
      Some (p', loop_end, tr) ∧
    tr = [lock tasks_mutex; unlock tasks_mutex;
          read_lock 0%nat; metric_increment; call_function 0%nat;
          store_next_time 0%nat 7; metric_decrement; read_unlock 0%nat] ∧
    stores_guarded false tr = false ∧
    wake 5 0%nat p' = Some (p'', tr') ∧
    tr' = [lock tasks_mutex; store_next_time 0%nat 5; unlock tasks_mutex;
           notify_one] ∧
    stores_guarded false tr' = true.
Proof.
  eexists _, _, _, _. split; [reflexivity|]. split; [reflexivity|].
  split; [reflexivity|]. split; [reflexivity|]. split; reflexivity.
Qed.

(** ** The counters over a whole iteration *)

Lemma counter_value_add (name name' : string) (delta : Z) (c : Counters) :
  counter_value name' (counter_add name delta c) =
    if decide (name = name') then counter_value name' c + delta
    else counter_value name' c.
Proof.
  unfold counter_add, counter_value at 1. rewrite lookup_insert.
  by destruct (decide (name = name')) as [->|].
Qed.

Lemma counter_add_lookup_None (name name' : string) (delta : Z) (c : Counters) :
  counter_add name delta c !! name' = None → name ≠ name' ∧ c !! name' = None.
Proof.
  unfold counter_add. rewrite lookup_insert.
  by destruct (decide (name = name')).
Qed.

(** The callable never drops an entry of [counters_diff]. *)
Lemma invoke_diff_keeps (f : Task) :
  ∀ shared diff shared' diff' res tr name,
    invoke f shared diff = (shared', diff', res, tr) →
    diff' !! name = None → diff !! name = None.
Proof.
  induction f as [done_work| |n delta rest IH];
    intros shared diff shared' diff' res tr name Hinv Hd.
  - by injection Hinv as _ <- _ _.
  - by injection Hinv as _ <- _ _.
  - cbn in Hinv.
    destruct (invoke rest (counter_add n delta shared) (counter_add n delta diff))
      as [[[shared2 diff2] res2] tr2] eqn:Hrest.
    injection Hinv as _ <- _ _.
    by destruct (counter_add_lookup_None _ _ _ _ (IH _ _ _ _ _ _ name Hrest Hd)).
Qed.

(** What the callable adds to a shared counter it also adds to the entry
    of [counters_diff]; a name without entry in [counters_diff] was not
    touched. *)
Lemma invoke_balance (f : Task) :
  ∀ shared diff shared' diff' res tr name,
    invoke f shared diff = (shared', diff', res, tr) →
    counter_value name shared' - counter_value name diff' =
      counter_value name shared - counter_value name diff ∧
    (diff' !! name = None → shared' !! name = shared !! name).
Proof.
  induction f as [done_work| |n delta rest IH];
    intros shared diff shared' diff' res tr name Hinv.
  - by injection Hinv as <- <- _ _.
  - by injection Hinv as <- <- _ _.
  - cbn in Hinv.
    destruct (invoke rest (counter_add n delta shared) (counter_add n delta diff))
      as [[[shared2 diff2] res2] tr2] eqn:Hrest.
    injection Hinv as <- <- _ _.
    destruct (IH _ _ _ _ _ _ name Hrest) as [Hbal Hnone].
    rewrite !counter_value_add in Hbal. split.
    + destruct (decide (n = name)); lia.
    + intros Hd. rewrite (Hnone Hd).
      pose proof (invoke_diff_keeps _ _ _ _ _ _ _ name Hrest Hd) as Hkeep.
      apply counter_add_lookup_None in Hkeep as [Hne _].
      unfold counter_add. by rewrite lookup_insert_ne.
Qed.

(** After the invocation and the subtraction every counter reads as
    before the invocation. *)
Lemma invoke_then_subtract_back (f : Task) (shared shared' diff' : Counters)
    (res : option bool) (tr : list action) (name : string) :
  invoke f shared ∅ = (shared', diff', res, tr) →
  counter_value name (subtract_back diff' shared') = counter_value name shared.
Proof.
  intros Hinv. destruct (invoke_balance f _ _ _ _ _ _ name Hinv) as [Hbal Hnone].
  unfold counter_value at 1. rewrite subtract_back_lookup.
  unfold counter_value at 2 4 in Hbal. rewrite lookup_empty in Hbal.
  destruct (diff' !! name) as [d|] eqn:Hd; cbn in *.
  - lia.
  - unfold counter_value. by rewrite Hnone.
Qed.

(** An iteration leaves every shared counter at the value it had, whatever
    the callable added and however it ended. *)
Lemma loop_body_counters (r : Readings) (p p' : Pool) (c : control)
    (tr : list action) (name : string) :
  loop_body r p = Some (p', c, tr) →
  counter_value name (counters p') = counter_value name (counters p).
Proof.
  intros Hbody. unfold loop_body, try_block in Hbody.
  destruct (select_task p) as [[[p1 s] tr1]|] eqn:Hsel; [|done].
  destruct (select_task_objects _ _ _ _ Hsel) as (Hobj & Hcnt & _).
  cbn in Hbody. unfold after_select in Hbody.
  destruct (shutdown p1); [injection Hbody as <- _ _; by rewrite <- Hcnt|].
  destruct (scan_task s) as [t|];
    [|injection Hbody as <- _ _; by rewrite <- Hcnt].
  unfold execute in Hbody.
  destruct (objects p1 !! t) as [ti|]; [|done]. cbn in Hbody.
  destruct (removed ti); [injection Hbody as <- _ _; by rewrite <- Hcnt|].
  destruct (invoke (function ti) (counters p1) ∅)
    as [[[shared diff] res] tr2] eqn:Hinv.
  pose proof (invoke_then_subtract_back _ _ _ _ _ _ name Hinv) as Hzero.
  destruct res as [done_work|]; cbn in Hbody; unfold complete in Hbody;
    cbn in Hbody; rewrite finish_spec in Hbody; injection Hbody as <- _ _;
    cbn; by rewrite Hzero, Hcnt.
Qed.

(** A worker that finds [shutdown] set at the loop test does nothing. *)
Lemma while_not_shutdown_stops (rs : list Readings) (p : Pool) :
  shutdown p = true → while_not_shutdown rs p = Some (p, []).
Proof. intros Hs. destruct rs; cbn; by rewrite ?Hs. Qed.

(** ** The loop body always yields a result *)

Lemma execute_total (r : Readings) (t : TaskHandle) (q : Pool) :
  is_Some (objects q !! t) → is_Some (execute r t q).
Proof.
  intros [ti Hq]. unfold execute. rewrite Hq. cbn.
  destruct (removed ti); [by eexists|].
  destruct (invoke (function ti) (counters q) ∅) as [[[shared diff] res] tr].
  destruct res; by eexists.
Qed.

(** In a pool whose list nodes all own an object, an iteration of the
    worker loop runs to its end. *)
Lemma loop_body_total (r : Readings) (p : Pool) :
  (∀ h, h ∈ tasks p → is_Some (objects p !! h)) → is_Some (loop_body r p).
Proof.
  intros Hall. destruct (select_task_total p Hall) as [[[p1 s] tr1] Hsel].
  destruct (select_task_spec _ _ _ _ Hsel) as (Hinv & _).
  destruct (select_task_objects _ _ _ _ Hsel) as (Hobj & _).
  unfold loop_body, try_block. rewrite Hsel. cbn. unfold after_select.
  destruct (shutdown p1); [by eexists|].
  destruct (scan_task s) as [t|] eqn:Ht; [|by eexists].
  destruct (chosen_considered _ _ _ Hinv Ht) as [Hin _].
  pose proof (inv_live _ _ Hinv t Hin) as Hlive. unfold live in Hlive.
  destruct (execute_total r t p1) as [b ->]; [|by eexists].
  rewrite Hobj. by destruct (objects p !! t).
Qed.

(** * Further properties of the pool *)

(** ** The list under [erase] *)

Lemma elem_of_erase (x h : TaskHandle) (l : list TaskHandle) :
  x ∈ erase h l → x ∈ l.
Proof.
  induction l as [|y l IH]; [done|]. cbn [erase].
  destruct (decide (y = h)) as [->|Hne]; [by right|].
  intros [->|Hin]%elem_of_cons; [left|right; auto].
Qed.

Lemma elem_of_erase_ne (x h : TaskHandle) (l : list TaskHandle) :
  x ∈ l → x ≠ h → x ∈ erase h l.
Proof.
  induction l as [|y l IH]; [done|]. cbn [erase].
  intros [->|Hin]%elem_of_cons Hne.
  - destruct (decide (y = h)); [done|left].
  - destruct (decide (y = h)); [done|right; auto].
Qed.

Lemma NoDup_erase (h : TaskHandle) (l : list TaskHandle) :
  NoDup l → NoDup (erase h l) ∧ h ∉ erase h l.
Proof.
  induction 1 as [|y l Hy Hl IH]; [split; [constructor|apply not_elem_of_nil]|].
  cbn [erase]. destruct (decide (y = h)) as [->|Hne]; [done|].
  destruct IH as [IH1 IH2]. split.
  - apply NoDup_cons. split; [|done]. intros Hin. apply Hy.
    by apply elem_of_erase in Hin.
  - apply not_elem_of_cons. split; [congruence|done].
Qed.

Lemma NoDup_splice_begin (h : TaskHandle) (l : list TaskHandle) :
  NoDup l → NoDup (splice_begin h l).
Proof.
  intros [H1 H2]%(NoDup_erase h). by apply NoDup_cons.
Qed.

Lemma NoDup_splice_end (h : TaskHandle) (l : list TaskHandle) :
  NoDup l → NoDup (splice_end h l).
Proof.
  intros [H1 H2]%(NoDup_erase h). apply NoDup_app.
  split; [done|]. split; [|apply NoDup_singleton].
  intros x Hx ->%list_elem_of_singleton. done.
Qed.

(** ** The pool stays at rest *)

Lemma live_insert_same (objs : gmap TaskHandle TaskInfo) (h t : TaskHandle)
    (ti ti' : TaskInfo) :
  objs !! t = Some ti → removed ti' = removed ti →
  live (<[t := ti']> objs) h ↔ live objs h.
Proof.
  intros Ht Hr. unfold live. rewrite lookup_insert.
  destruct (decide (t = h)) as [<-|]; [|done].
  rewrite Ht. cbn. by rewrite Hr.
Qed.

Lemma addTask_ok (task : Task) (p : Pool) :
  pool_ok p → pool_ok (addTask task p).1.2.
Proof.
  intros [Hnd Hlive]. unfold addTask. cbn.
  assert (Hfresh : fresh (dom (objects p)) ∉ tasks p).
  { intros Hin. specialize (Hlive _ Hin). unfold live in Hlive.
    destruct (objects p !! fresh (dom (objects p))) as [ti|] eqn:Hf; [|done].
    apply (is_fresh (dom (objects p))). apply elem_of_dom. by eexists. }
  split; cbn.
  - by apply NoDup_cons.
  - intros h [->|Hin]%elem_of_cons; unfold live.
    + by rewrite lookup_insert_eq.
    + rewrite lookup_insert_ne by (intros <-; done). by apply Hlive.
Qed.

Lemma removeTask_ok (h : TaskHandle) (p p' : Pool) (tr : list action) :
  pool_ok p → removeTask h p = Some (p', tr) → pool_ok p'.
Proof.
  intros [Hnd Hlive]. unfold removeTask.
  destruct (objects p !! h) as [ti|] eqn:Hh; [|done]. cbn.
  destruct (removed ti) eqn:Hr; intros [= <- _].
  - by rewrite set_removed_same, with_object_same.
  - destruct (NoDup_erase h _ Hnd) as [H1 H2]. split; cbn; [done|].
    intros x Hx. unfold live. rewrite lookup_insert_ne.
    + apply Hlive. by apply elem_of_erase in Hx.
    + intros <-. by apply H2.
Qed.

Lemma wake_ok (current_time : time_t) (h : TaskHandle) (p p' : Pool)
    (tr : list action) :
  pool_ok p → wake current_time h p = Some (p', tr) → pool_ok p'.
Proof.
  intros [Hnd Hlive]. unfold wake.
  destruct (objects p !! h) as [ti|] eqn:Hh; [|done]. cbn.
  destruct (removed ti) eqn:Hr; [by intros [= <- _]|].
  assert (Hh_live : live (objects p) h) by (unfold live; by rewrite Hh; cbn; rewrite Hr).
  assert (Hall : ∀ x, x ∈ splice_begin h (tasks p) → live (objects p) x).
  { intros x [->|Hx]%elem_of_cons; [done|]. apply Hlive.
    by apply elem_of_erase in Hx. }
  case_bool_decide; intros [= <- _]; (split; cbn; [by apply NoDup_splice_begin|]).
  - intros x Hx. by apply (live_insert_same _ _ _ ti), Hall.
  - done.
Qed.

Lemma select_task_ok (p p' : Pool) (s : Scan) (tr : list action) :
  pool_ok p → select_task p = Some (p', s, tr) → pool_ok p'.
Proof.
  intros [Hnd Hlive] Hsel.
  destruct (select_task_spec _ _ _ _ Hsel) as (Hinv & _ & -> & _).
  destruct (scan_task s) as [t|] eqn:Ht; [|done].
  destruct (chosen_considered _ _ _ Hinv Ht) as [Hin _].
  split; cbn.
  - by apply NoDup_splice_end.
  - intros x [Hx| ->%list_elem_of_singleton]%elem_of_app.
    + apply Hlive. by apply elem_of_erase in Hx.
    + by apply (inv_live _ _ Hinv).
Qed.

(** ** What one iteration touches *)

Lemma no_call_in_ready_wait (r : Readings) (m : time_t) (h : TaskHandle) :
  call_function h ∉ ready_wait r m.
Proof. unfold ready_wait. case_bool_decide; absent. Qed.

Lemma no_call_in_finish (diff : Counters) (e : bool) (p : Pool) (h : TaskHandle) :
  call_function h ∉ (finish diff e p).2.
Proof.
  rewrite finish_spec. cbn. apply not_elem_of_app.
  split; [case_bool_decide|destruct (shutdown p), e]; absent.
Qed.

Lemma no_call_in_counter_locking (tr : list action) (h : TaskHandle) :
  Forall (λ a, a = lock counters_mutex ∨ a = unlock counters_mutex) tr →
  call_function h ∉ tr.
Proof.
  intros Htr Hin. rewrite Forall_forall in Htr. by destruct (Htr _ Hin).
Qed.

(** The parts of [execute]: it leaves the list and the flag [shutdown],
    stores at most into the task it was given, and calls nothing else. *)
Lemma execute_frame (r : Readings) (t : TaskHandle) (q : Pool) (b : Block) :
  execute r t q = Some b →
  tasks (block_pool b) = tasks q ∧
  shutdown (block_pool b) = shutdown q ∧
  (∀ h, h ≠ t → objects (block_pool b) !! h = objects q !! h) ∧
  (∃ ti, objects q !! t = Some ti ∧
         (objects (block_pool b) !! t = Some ti ∨
          removed ti = false ∧
          ∃ n, objects (block_pool b) !! t = Some (set_next_time n ti))) ∧
  (∀ h, call_function h ∈ block_trace b → h = t ∧ live (objects q) t).
Proof.
  unfold execute. intros Hexec.
  destruct (objects q !! t) as [ti|] eqn:Hq; [|done]. cbn in Hexec.
  destruct (removed ti) eqn:Hr.
  { injection Hexec as <-. cbn.
    split; [done|]. split; [done|]. split; [done|]. split.
    - exists ti. split; [done|by left].
    - intros h Hin. exfalso. revert Hin. absent. }
  destruct (invoke_outcome (function ti) (counters q) ∅)
    as (shared & diff & tr & Hinv & Htr).
  rewrite Hinv in Hexec.
  assert (Hlive : live (objects q) t)
    by (unfold live; rewrite Hq; cbn; by rewrite Hr).
  assert (Hcall : ∀ h tail,
            (∀ h', call_function h' ∉ tail) →
            call_function h ∈
              [read_lock t; metric_increment; call_function t] ++ tr ++ tail →
            h = t).
  { intros h tail Htail. cbn.
    intros [?|[?|[[= ->]|Hin]%elem_of_cons]%elem_of_cons]%elem_of_cons;
      try done.
    apply elem_of_app in Hin as [Hin|Hin].
    - by apply no_call_in_counter_locking in Hin.
    - by apply Htail in Hin. }
  destruct (outcome (function ti)) as [done_work|]; injection Hexec as <-; cbn;
    (split; [done|]); (split; [done|]); split.
  - intros h Hne. by rewrite lookup_insert_ne.
  - split.
    + exists ti. split; [done|]. right. split; [done|].
      eexists. by rewrite lookup_insert_eq.
    + intros h Hin. split; [|done]. revert Hin. apply Hcall. intros h'. absent.
  - done.
  - split.
    + exists ti. split; [done|by left].
    + intros h Hin. split; [|done]. revert Hin. apply Hcall. intros h'. absent.
Qed.

Lemma complete_frame (b : Block) :
  tasks (complete b).1.1 = tasks (block_pool b) ∧
  objects (complete b).1.1 = objects (block_pool b) ∧
  shutdown (complete b).1.1 = shutdown (block_pool b) ∧
  ∀ h, call_function h ∈ (complete b).2 → call_function h ∈ block_trace b.
Proof.
  unfold complete.
  destruct (block_exit b); try (cbn; by repeat split).
  - pose proof (no_call_in_finish (block_counters_diff b) false (block_pool b))
      as Hno.
    rewrite finish_spec in *. cbn in *.
    split; [done|]. split; [done|]. split; [done|].
    intros h [Hin|Hin]%elem_of_app; [done|by apply Hno in Hin].
  - pose proof (no_call_in_finish (block_counters_diff b) true (block_pool b))
      as Hno.
    rewrite finish_spec in *. cbn in *.
    split; [done|]. split; [done|]. split; [done|].
    intros h [Hin|[?|Hin]%elem_of_cons]%elem_of_app;
      [done|done|by apply Hno in Hin].
Qed.

(** One iteration: it selects, and beyond the move of the chosen task it
    leaves the list and the flag [shutdown]; the only task it can store
    into or call is the chosen one, which is live. *)
Lemma loop_body_frame (r : Readings) (p p' : Pool) (c : control)
    (tr : list action) :
  loop_body r p = Some (p', c, tr) →
  ∃ p1 s,
    select_task p = Some (p1, s, [lock tasks_mutex; unlock tasks_mutex]) ∧
    tasks p' = tasks p1 ∧
    shutdown p' = shutdown p ∧
    (∀ h, objects p' !! h = objects p !! h ∨
          scan_task s = Some h ∧
          ∃ ti n, objects p !! h = Some ti ∧ removed ti = false ∧
                  objects p' !! h = Some (set_next_time n ti)) ∧
    (∀ h, call_function h ∈ tr →
          scan_task s = Some h ∧ live (objects p) h ∧ shutdown p = false).
Proof.
  unfold loop_body, try_block. intros Hbody.
  destruct (select_task p) as [[[p1 s] tr1]|] eqn:Hsel; [|done].
  destruct (select_task_spec _ _ _ _ Hsel) as (_ & _ & _ & ->).
  destruct (select_task_objects _ _ _ _ Hsel) as (Hobj & _ & Hshut).
  exists p1, s. split; [done|]. cbn in Hbody.
  destruct (after_select r s p1) as [b|] eqn:Hafter; [|done].
  cbn in Hbody. injection Hbody as Hbody.
  match type of Hbody with
  | complete ?b' = _ =>
      destruct (complete_frame b') as (Htasks & Hobjs & Hshut' & Hcalls)
  end.
  rewrite Hbody in Htasks, Hobjs, Hshut', Hcalls. cbn in Htasks, Hobjs, Hshut', Hcalls.
  rewrite Htasks, Hobjs, Hshut'. clear Hbody.
  unfold after_select in Hafter. rewrite Hshut in Hafter.
  destruct (shutdown p) eqn:Hup.
  { injection Hafter as <-. cbn in *. split; [done|]. split; [done|].
    split; [intros h; left; by rewrite Hobj|].
    intros h Hin%Hcalls. exfalso. revert Hin. cbn. absent. }
  destruct (scan_task s) as [t|] eqn:Ht.
  2:{ injection Hafter as <-. cbn in *. split; [done|]. split; [done|].
      split; [intros h; left; by rewrite Hobj|].
      intros h Hin%Hcalls. exfalso. revert Hin. cbn. absent. }
  destruct (execute r t p1) as [e|] eqn:Hexec; [|done].
  cbn in Hafter. injection Hafter as <-. cbn in *.
  destruct (execute_frame _ _ _ _ Hexec)
    as (Htl & Hsh & Hother & (ti & Hti & Hsame) & Hcall).
  rewrite Hobj in *.
  split; [done|]. split; [by rewrite Hsh|]. split.
  - intros h. destruct (decide (h = t)) as [->|Hne]; [|left; by apply Hother].
    destruct Hsame as [Hsame|(Hr & n & Hn)]; [left; by rewrite Hsame|].
    right. split; [done|]. by exists ti, n.
  - intros h Hin%Hcalls. cbn in Hin.
    apply elem_of_cons in Hin as [?|Hin]; [done|].
    apply elem_of_cons in Hin as [?|Hin]; [done|].
    apply elem_of_app in Hin as [Hin|Hin];
      [by apply no_call_in_ready_wait in Hin|].
    destruct (Hcall h Hin) as [-> Hlive]. done.
Qed.

Lemma loop_body_removed (r : Readings) (p p' : Pool) (c : control)
    (tr : list action) (h : TaskHandle) :
  loop_body r p = Some (p', c, tr) →
  (removed <$> objects p' !! h) = removed <$> objects p !! h.
Proof.
  intros (p1 & s & _ & _ & _ & Hobj & _)%loop_body_frame.
  destruct (Hobj h) as [->|(_ & ti & n & -> & Hr & ->)]; [done|].
  cbn. by rewrite Hr.
Qed.

Lemma loop_body_ok (r : Readings) (p p' : Pool) (c : control) (tr : list action) :
  pool_ok p → loop_body r p = Some (p', c, tr) → pool_ok p'.
Proof.
  intros Hok Hbody.
  destruct (loop_body_frame _ _ _ _ _ Hbody) as (p1 & s & Hsel & Htasks & _).
  destruct (select_task_ok _ _ _ _ Hok Hsel) as [Hnd Hlive].
  destruct (select_task_objects _ _ _ _ Hsel) as (Hobj & _).
  split; rewrite Htasks; [done|].
  intros h Hin. specialize (Hlive h Hin). unfold live in *.
  by rewrite (loop_body_removed _ _ _ _ _ h Hbody), <- Hobj.
Qed.

Lemma pool_of_three_ok : pool_ok (pool_of [worker 0; idler 30; faulty 4]).
Proof.
  split.
  - cbn. repeat (apply NoDup_cons; split; [absent|]). apply NoDup_nil_2.
  - intros h Hin. cbn in Hin.
    repeat (apply elem_of_cons in Hin as [->|Hin]; [reflexivity|]).
    by apply elem_of_nil in Hin.
Qed.

(** ** The task list while removals are under way *)













(** ** A removed task is never called again *)

Lemma flagged_never_called (rs : list Readings) :
  ∀ p q tr h,
    (removed <$> objects p !! h) = Some true →
    while_not_shutdown rs p = Some (q, tr) →
    (call_function h ∉ tr) ∧ (removed <$> objects q !! h) = Some true.
Proof.
  induction rs as [|r rs IH]; intros p q tr h Hflag Hrun; cbn in Hrun.
  { injection Hrun as <- <-. split; [apply not_elem_of_nil|done]. }
  destruct (shutdown p).
  { injection Hrun as <- <-. split; [apply not_elem_of_nil|done]. }
  destruct (loop_body r p) as [[[p1 c] tr1]|] eqn:Hbody; [|done].
  cbn in Hrun.
  assert (Hflag1 : (removed <$> objects p1 !! h) = Some true)
    by (by rewrite (loop_body_removed _ _ _ _ _ h Hbody)).
  assert (Hno : call_function h ∉ tr1).
  { intros Hin.
    destruct (loop_body_frame _ _ _ _ _ Hbody) as (p0 & s & _ & _ & _ & _ & Hcall).
    destruct (Hcall h Hin) as (_ & Hlive & _). unfold live in Hlive. congruence. }
  assert (Hrest : ∀ q' tr', while_not_shutdown rs p1 = Some (q', tr') →
            Some (q', tr1 ++ tr') = Some (q, tr) →
            (call_function h ∉ tr) ∧ (removed <$> objects q !! h) = Some true).
  { intros q' tr' Hrun' [= <- <-].
    destruct (IH _ _ _ h Hflag1 Hrun') as [Hno' Hflag'].
    split; [|done]. by apply not_elem_of_app. }
  destruct c.
  - by injection Hrun as <- <-.
  - destruct (while_not_shutdown rs p1) as [[q' tr']|] eqn:Hrun'; [|done].
    by eapply Hrest.
  - destruct (while_not_shutdown rs p1) as [[q' tr']|] eqn:Hrun'; [|done].
    by eapply Hrest.
Qed.

(** X3: once [removeTask] has returned, no worker calls the task again:
    however many iterations a worker runs from the pool [removeTask]
    leaves, none of them calls the callable of the removed task, and the
    task is still flagged as removed at the end. *)
Theorem removed_task_never_called (h : TaskHandle) (p p' q : Pool)
    (tr0 tr : list action) (first_draw : Q) (rs : list Readings) :
  removeTask h p = Some (p', tr0) →
  threadFunction first_draw rs p' = Some (q, tr) →
  (call_function h ∉ tr) ∧ (removed <$> objects q !! h) = Some true.
Proof.
  intros Hrem Hrun.
  assert (Hflag : (removed <$> objects p' !! h) = Some true).
  { unfold removeTask in Hrem.
    destruct (objects p !! h) as [ti|]; [|done]. cbn in Hrem.
    destruct (removed ti); injection Hrem as <- _; cbn;
      by rewrite lookup_insert_eq. }
  unfold threadFunction in Hrun.
  destruct (while_not_shutdown rs p') as [[q' tr']|] eqn:Hloop; [|done].
  cbn in Hrun. injection Hrun as <- <-.
  destruct (flagged_never_called rs _ _ _ h Hflag Hloop) as [Hno Hq].
  split; [|done]. apply not_elem_of_cons. by split.
Qed.

Lemma removed_task_never_called_witness :
  ∃ p' q tr,
    removeTask 0%nat (pool_of [worker 0; idler 30]) =
      Some (p', [write_lock 0%nat; write_unlock 0%nat;
                 lock tasks_mutex; unlock tasks_mutex]) ∧
    threadFunction (1 # 3) [mkReadings (0, 2 ^ 31)%N 5 7; mkReadings (0, 2 ^ 30)%N 40 42] p' =
      Some (q, tr) ∧
    (call_function 1%nat ∈ tr) ∧
    (call_function 0%nat ∉ tr).
Proof.
  eexists _, _, _. split; [reflexivity|].
  split; [vm_compute; reflexivity|]. split.
  - do 8 right. left.
  - eapply (removed_task_never_called 0%nat (pool_of [worker 0; idler 30])
              _ _ _ _ (1 # 3) [mkReadings (0, 2 ^ 31)%N 5 7; mkReadings (0, 2 ^ 30)%N 40 42]);
      [reflexivity|vm_compute; reflexivity].
Defined.

(** ** What the selection considers and when it chooses *)

(** The minimum never exceeds the largest [time_t], and lies below it as
    soon as a task is chosen. *)
Lemma scan_bound (objs : gmap TaskHandle TaskInfo) (l : list TaskHandle) :
  ∀ s s', scan objs l s = Some s' →
  scan_min_time s ≤ time_t_max ∧
    (is_Some (scan_task s) → scan_min_time s < time_t_max) →
  scan_min_time s' ≤ time_t_max ∧
    (is_Some (scan_task s') → scan_min_time s' < time_t_max).
Proof.
  induction l as [|handle l IH]; intros s s' Hscan Hs.
  - cbn in Hscan. by injection Hscan as <-.
  - destruct (objs !! handle) as [ti|] eqn:Hh;
      [|by rewrite scan_cons_None in Hscan].
    rewrite (scan_cons _ _ _ _ ti) in Hscan by done.
    destruct (removed ti); [by eapply IH|].
    assert (Hv : scan_min_time (visit handle ti s) ≤ time_t_max ∧
                 (is_Some (scan_task (visit handle ti s)) →
                  scan_min_time (visit handle ti s) < time_t_max)).
    { unfold visit. destruct Hs as [Hle Hlt].
      destruct (decide (next_time_to_execute ti < scan_min_time s)) as [Hn|Hn].
      - rewrite bool_decide_eq_true_2 by done. cbn. split; [lia|]. intros _. lia.
      - by rewrite bool_decide_eq_false_2 by done. }
    case_bool_decide; [by injection Hscan as <-|by eapply IH].
Qed.

Lemma select_task_bound (p p' : Pool) (s : Scan) (tr : list action) :
  select_task p = Some (p', s, tr) →
  scan_min_time s ≤ time_t_max ∧
    (is_Some (scan_task s) → scan_min_time s < time_t_max).
Proof.
  unfold select_task. intros Hsel.
  destruct (if bool_decide (tasks p = []) then Some scan_start
            else scan (objects p) (tasks p) scan_start) as [s0|] eqn:Hscan;
    [|done].
  cbn in Hsel. injection Hsel as _ <- _.
  assert (Hstart : scan_min_time scan_start ≤ time_t_max ∧
            (is_Some (scan_task scan_start) →
             scan_min_time scan_start < time_t_max)).
  { cbn. split; [lia|]. by intros [? ?]. }
  case_bool_decide; [by injection Hscan as <-|].
  by eapply scan_bound.
Qed.

(** X4: the selection looks at the first 101 live tasks of the list, in
    list order, and at nothing else; the minimum it reports bounds the
    ready time of each of them; and it chooses no task exactly when none
    of them is ready before the largest [time_t], in particular when the
    list is empty. *)
Theorem selection_considers_first_live (p p' : Pool) (s : Scan)
    (tr : list action) :
  select_task p = Some (p', s, tr) →
  scan_considered s = take 101 (filter (live (objects p)) (tasks p)) ∧
  (∀ h, h ∈ scan_considered s →
        ∃ n, ready_time (objects p) h = Some n ∧ scan_min_time s ≤ n) ∧
  (scan_task s = None ↔
   ∀ h n, h ∈ scan_considered s → ready_time (objects p) h = Some n →
          time_t_max ≤ n) ∧
  (tasks p = [] → scan_task s = None ∧ p' = p).
Proof.
  intros Hsel.
  destruct (select_task_spec _ _ _ _ Hsel) as (Hinv & Hcons & Hp' & _).
  destruct (select_task_bound _ _ _ _ Hsel) as [_ Hlt].
  split; [done|]. split; [apply (inv_min _ _ Hinv)|].
  assert (Hnone : scan_task s = None ↔
            ∀ h n, h ∈ scan_considered s → ready_time (objects p) h = Some n →
                   time_t_max ≤ n).
  { split.
    - intros Hnone h n Hin Hn.
      pose proof (inv_task _ _ Hinv) as Htask. rewrite Hnone in Htask.
      destruct (inv_min _ _ Hinv h Hin) as (n' & Hn' & Hle).
      rewrite Hn in Hn'. injection Hn' as <-. lia.
    - intros Hall. destruct (scan_task s) as [t|] eqn:Ht; [|done].
      destruct (chosen_considered _ _ _ Hinv Ht) as [Hin Hready].
      specialize (Hall _ _ Hin Hready).
      assert (scan_min_time s < time_t_max) by (apply Hlt; by eexists). lia. }
  split; [done|].
  intros Hempty.
  assert (Hno : scan_task s = None).
  { apply Hnone. intros h n Hin. rewrite Hcons, Hempty in Hin.
    by apply elem_of_nil in Hin. }
  split; [done|]. by rewrite Hno in Hp'.
Qed.

Lemma selection_considers_first_live_witness :
  ∃ p' s tr,
    select_task (pool_of [retired 0; idler 30; worker 4]) = Some (p', s, tr) ∧
    scan_considered s = [1; 2]%nat ∧
    scan_task s = Some 2%nat ∧
    tasks p' = [0; 1; 2]%nat.
Proof.
  eexists _, _, _. split; [reflexivity|].
  destruct (selection_considers_first_live
              (pool_of [retired 0; idler 30; worker 4]) _ _ _ eq_refl)
    as (Hcons & _).
  split; [exact Hcons|]. split; reflexivity.
Defined.

(** ** A pool without tasks *)

(** X5: while no task is registered a worker only waits: every iteration
    takes [tasks_mutex], waits on [wake_event] for [sleep_seconds] plus
    the value drawn, and continues; nothing is called and the pool stays
    as it is, for any number of iterations. *)
Theorem empty_pool_idles (rs : list Readings) (p : Pool) :
  tasks p = [] →
  shutdown p = false →
  (∀ r, loop_body r p =
        Some (p, loop_continue,
              [lock tasks_mutex; unlock tasks_mutex; lock tasks_mutex;
               wait_for (inject_Z sleep_seconds + jitter r)%Q;
               unlock tasks_mutex])) ∧
  while_not_shutdown rs p =
    Some (p, concat (map (λ r, [lock tasks_mutex; unlock tasks_mutex;
                                lock tasks_mutex;
                                wait_for (inject_Z sleep_seconds + jitter r)%Q;
                                unlock tasks_mutex]) rs)).
Proof.
  intros Hempty Hup.
  assert (Hbody : ∀ r, loop_body r p =
            Some (p, loop_continue,
                  [lock tasks_mutex; unlock tasks_mutex; lock tasks_mutex;
                   wait_for (inject_Z sleep_seconds + jitter r)%Q;
                   unlock tasks_mutex])).
  { intros r. unfold loop_body, try_block, select_task.
    rewrite Hempty. cbn. unfold after_select. by rewrite Hup. }
  split; [done|].
  induction rs as [|r rs IH]; [done|].
  cbn [while_not_shutdown]. rewrite Hup, Hbody. cbn. by rewrite IH.
Qed.

Lemma empty_pool_idles_witness :
  while_not_shutdown [mkReadings (0, 2 ^ 31)%N 5 7; mkReadings (0, 2 ^ 30)%N 16 17]
    (pool_of []) =
    Some (pool_of [],
          [lock tasks_mutex; unlock tasks_mutex; lock tasks_mutex;
           wait_for (inject_Z sleep_seconds + (1 # 2))%Q; unlock tasks_mutex;
           lock tasks_mutex; unlock tasks_mutex; lock tasks_mutex;
           wait_for (inject_Z sleep_seconds + (1 # 4))%Q; unlock tasks_mutex]).
Proof.
  apply (empty_pool_idles [mkReadings (0, 2 ^ 31)%N 5 7; mkReadings (0, 2 ^ 30)%N 16 17]
           (pool_of [])); reflexivity.
Defined.

(** ** A new task is served next *)

(** A scan over tasks none of which is ready before the minimum found so
    far keeps the task chosen so far. *)
Lemma scan_keeps (objs : gmap TaskHandle TaskInfo) (l : list TaskHandle) :
  ∀ s s', scan objs l s = Some s' →
  (∀ h ti, h ∈ l → objs !! h = Some ti → scan_min_time s ≤ next_time_to_execute ti) →
  scan_task s' = scan_task s ∧ scan_min_time s' = scan_min_time s.
Proof.
  induction l as [|handle l IH]; intros s s' Hscan Hall.
  - cbn in Hscan. by injection Hscan as <-.
  - destruct (objs !! handle) as [ti|] eqn:Hh;
      [|by rewrite scan_cons_None in Hscan].
    rewrite (scan_cons _ _ _ _ ti) in Hscan by done.
    assert (Hrest : ∀ h ti', h ∈ l → objs !! h = Some ti' →
              scan_min_time s ≤ next_time_to_execute ti')
      by (intros h ti' Hin; apply Hall; by right).
    destruct (removed ti); [by eapply IH|].
    assert (Hv : visit handle ti s =
                 mkScan (S (scan_i s)) (scan_min_time s) (scan_task s)
                   (scan_considered s ++ [handle])).
    { unfold visit. rewrite bool_decide_eq_false_2; [done|].
      specialize (Hall handle ti (list_elem_of_here _ _) Hh). lia. }
    rewrite Hv in Hscan.
    case_bool_decide; [by injection Hscan as <-|].
    apply IH in Hscan; [done|]. by cbn.
Qed.

(** X1: [addTask] puts the new task, under a handle no object had, at the
    front of the list, ready at second zero; the other tasks are as they
    were and every waiting worker is notified.  When no registered task
    has a negative ready time, the next selection chooses the new task
    and moves it behind all the others. *)
Theorem added_task_selected_next (task : Task) (p : Pool) :
  pool_ok p →
  (∀ h ti, objects p !! h = Some ti → 0 ≤ next_time_to_execute ti) →
  ∃ res p1 p2 s,
    addTask task p =
      (res, p1, [lock tasks_mutex; unlock tasks_mutex; notify_all]) ∧
    objects p !! res = None ∧
    tasks p1 = res :: tasks p ∧
    objects p1 !! res = Some (mkTaskInfo task 0 false) ∧
    (∀ h, h ≠ res → objects p1 !! h = objects p !! h) ∧
    select_task p1 = Some (p2, s, [lock tasks_mutex; unlock tasks_mutex]) ∧
    scan_task s = Some res ∧
    scan_min_time s = 0 ∧
    tasks p2 = tasks p ++ [res].
Proof.
  intros [Hnd Hlive] Hpos.
  set (res := fresh (dom (objects p))).
  assert (Hnew : objects p !! res = None).
  { apply not_elem_of_dom. apply is_fresh. }
  set (objs := <[res := new_TaskInfo task]> (objects p)).
  assert (Hall : ∀ h, h ∈ tasks p → is_Some (objs !! h)).
  { intros h Hin. specialize (Hlive h Hin). unfold live in Hlive.
    unfold objs. rewrite lookup_insert_ne by (intros <-; by rewrite Hnew in Hlive).
    by destruct (objects p !! h); [eexists|]. }
  destruct (scan_total objs (tasks p) Hall
              (visit res (new_TaskInfo task) scan_start)) as [s Hscan].
  assert (Hvisit : visit res (new_TaskInfo task) scan_start =
                   mkScan 1 0 (Some res) [res]) by reflexivity.
  destruct (scan_keeps objs (tasks p) _ _ Hscan) as [Htask Hmin].
  { rewrite Hvisit. cbn. intros h ti _. unfold objs. rewrite lookup_insert.
    destruct (decide (res = h)); [by intros [= <-]|apply Hpos]. }
  rewrite Hvisit in Htask, Hmin. cbn in Htask, Hmin.
  exists res, (with_tasks (res :: tasks p) (with_object res (new_TaskInfo task) p)),
    (with_tasks (tasks p ++ [res])
       (with_tasks (res :: tasks p) (with_object res (new_TaskInfo task) p))), s.
  split; [done|]. split; [done|]. split; [done|].
  split; [cbn; by rewrite lookup_insert_eq|].
  split; [intros h Hne; cbn; by rewrite lookup_insert_ne|].
  split; [|done].
  unfold select_task. cbn [tasks with_tasks with_object objects].
  rewrite bool_decide_eq_false_2 by done.
  rewrite (scan_cons _ _ _ _ (new_TaskInfo task)) by apply lookup_insert_eq.
  cbn [removed new_TaskInfo]. fold (new_TaskInfo task).
  rewrite bool_decide_eq_false_2 by (rewrite Hvisit; cbn; lia).
  fold objs. rewrite Hscan. cbn. rewrite Htask. unfold splice_end. cbn [erase].
  by rewrite decide_True.
Qed.

Lemma added_task_selected_next_witness :
  ∃ p1 p2 s,
    addTask (task_return true) (pool_of [worker 0; idler 30; faulty 4]) =
      (3%nat, p1, [lock tasks_mutex; unlock tasks_mutex; notify_all]) ∧
    select_task p1 = Some (p2, s, [lock tasks_mutex; unlock tasks_mutex]) ∧
    scan_task s = Some 3%nat ∧
    tasks p2 = [0; 1; 2; 3]%nat.
Proof.
  destruct (added_task_selected_next (task_return true)
              (pool_of [worker 0; idler 30; faulty 4]) pool_of_three_ok)
    as (res & p1 & p2 & s & Hadd & _ & _ & _ & _ & Hsel & Htask & _ & Htasks).
  { intros h ti Hh.
    apply (map_Forall_lookup_1 (λ _ ti, 0 ≤ next_time_to_execute ti)
             (objects (pool_of [worker 0; idler 30; faulty 4])) h ti); [|done].
    apply (bool_decide_eq_true_1 _). vm_compute. reflexivity. }
  assert (Hres : res = 3%nat).
  { apply (f_equal (λ x, x.1.1)) in Hadd. cbn in Hadd. rewrite <- Hadd.
    by vm_compute. }
  subst res. exists p1, p2, s. done.
Defined.

(** ** A woken task is served without a wait *)

Lemma pool_ok_total (p : Pool) :
  pool_ok p → ∀ h, h ∈ tasks p → is_Some (objects p !! h).
Proof.
  intros [_ Hlive] h Hin. specialize (Hlive h Hin). unfold live in Hlive.
  by destruct (objects p !! h); [eexists|].
Qed.

Lemma select_task_Permutation (p p' : Pool) (s : Scan) (tr : list action) :
  select_task p = Some (p', s, tr) → tasks p' ≡ₚ tasks p.
Proof.
  intros Hsel.
  destruct (select_task_spec _ _ _ _ Hsel) as (Hinv & Hcons & -> & _).
  destruct (scan_task s) as [t|] eqn:Ht; [|done]. cbn.
  apply splice_end_Permutation.
  destruct (chosen_considered _ _ _ Hinv Ht) as [Hin _].
  rewrite Hcons in Hin. apply elem_of_take in Hin as (i & Hi & _).
  apply list_elem_of_lookup_2 in Hi.
  apply list_elem_of_filter in Hi. by destruct Hi.
Qed.

(** X6: after [wake] on a listed task at second [now], the selection that
    follows chooses a task whose ready time is not after [now], so a
    worker selecting at that second or later runs a task without the wait
    of lines 171-176.  The task chosen is the woken one unless another
    task considered is ready strictly earlier. *)
Theorem woken_task_served_without_wait (now : time_t) (h : TaskHandle) (p : Pool) :
  pool_ok p →
  h ∈ tasks p →
  now < time_t_max →
  ∃ p1 tr p2 s t,
    wake now h p = Some (p1, tr) ∧
    head (tasks p1) = Some h ∧
    select_task p1 = Some (p2, s, [lock tasks_mutex; unlock tasks_mutex]) ∧
    scan_task s = Some t ∧
    scan_min_time s ≤ now ∧
    (∀ r, now ≤ time_170 r → ready_wait r (scan_min_time s) = []) ∧
    (t = h ∨
     ∃ n m, ready_time (objects p1) t = Some n ∧
            ready_time (objects p1) h = Some m ∧ n < m).
Proof.
  intros Hok Hin Hnow.
  pose proof (proj2 Hok h Hin) as Hlive. unfold live in Hlive.
  destruct (objects p !! h) as [ti|] eqn:Hh; [|done].
  cbn in Hlive. injection Hlive as Hr.
  assert (Hp1 : ∃ p1 tr,
            wake now h p = Some (p1, tr) ∧
            tasks p1 = h :: erase h (tasks p) ∧
            ∃ m, ready_time (objects p1) h = Some m ∧ m ≤ now ∧
                 live (objects p1) h).
  { unfold wake. rewrite Hh. cbn. rewrite Hr. unfold ready_time, live.
    case_bool_decide; eexists _, _; (split; [reflexivity|]); cbn;
      (split; [done|]).
    - exists now. rewrite lookup_insert_eq. cbn. by rewrite Hr.
    - exists (next_time_to_execute ti). rewrite Hh. cbn. rewrite Hr.
      split; [done|]. split; [lia|done]. }
  destruct Hp1 as (p1 & tr & Hwake & Hp1).
  pose proof (wake_ok _ _ _ _ _ Hok Hwake) as Hok1.
  destruct Hp1 as (Htasks & m & Hm & Hle & Hlive1).
  destruct (select_task_total p1 (pool_ok_total _ Hok1)) as [[[p2 s] tr2] Hsel].
  destruct (select_task_spec _ _ _ _ Hsel) as (Hinv & Hcons & _ & ->).
  assert (Hfirst : ∃ rest, scan_considered s = h :: rest).
  { rewrite Hcons, Htasks, filter_cons_True by done. by eexists. }
  destruct Hfirst as [rest Hrest].
  assert (Hhin : h ∈ scan_considered s) by (rewrite Hrest; left).
  destruct (inv_min _ _ Hinv h Hhin) as (m' & Hm' & Hmin).
  rewrite Hm in Hm'. injection Hm' as <-.
  assert (Htask : ∃ t, scan_task s = Some t).
  { pose proof (inv_task _ _ Hinv) as Htask.
    destruct (scan_task s) as [t|]; [by eexists|]. lia. }
  destruct Htask as [t Ht].
  exists p1, tr, p2, s, t. split; [done|]. split; [by rewrite Htasks|].
  split; [done|]. split; [done|]. split; [lia|]. split.
  - intros r Hlater. unfold ready_wait. rewrite bool_decide_eq_false_2; [done|lia].
  - destruct (chosen_considered _ _ _ Hinv Ht) as [Htin Hready].
    destruct (decide (m = scan_min_time s)) as [Heq|Hne].
    + left. pose proof (inv_task _ _ Hinv) as Htask. rewrite Ht in Htask.
      unfold ties in Htask. rewrite Hrest, filter_cons_True in Htask
        by (by rewrite Hm, Heq).
      by injection Htask as <-.
    + right. exists (scan_min_time s), m. split; [done|]. split; [done|lia].
Qed.

Lemma woken_task_served_without_wait_witness :
  ∃ p1 p2 s,
    wake 5 1%nat (pool_of [worker 7; idler 30; faulty 9]) =
      Some (p1, [lock tasks_mutex; store_next_time 1%nat 5;
                 unlock tasks_mutex; notify_one]) ∧
    select_task p1 = Some (p2, s, [lock tasks_mutex; unlock tasks_mutex]) ∧
    scan_task s = Some 1%nat ∧
    scan_min_time s ≤ 5.
Proof.
  assert (Hok : pool_ok (pool_of [worker 7; idler 30; faulty 9])).
  { split.
    - cbn. repeat (apply NoDup_cons; split; [absent|]). apply NoDup_nil_2.
    - intros h Hin. cbn in Hin.
      repeat (apply elem_of_cons in Hin as [->|Hin]; [reflexivity|]).
      by apply elem_of_nil in Hin. }
  destruct (woken_task_served_without_wait 5 1%nat
              (pool_of [worker 7; idler 30; faulty 9]) Hok)
    as (p1 & tr & p2 & s & t & Hwake & _ & Hsel & Ht & Hmin & _);
    [right; left|reflexivity|].
  vm_compute in Hwake. injection Hwake as <- <-.
  vm_compute in Hsel. injection Hsel as <- <-.
  eexists _, _, _. split; [vm_compute; reflexivity|].
  split; [vm_compute; reflexivity|]. split; [reflexivity|exact Hmin].
Defined.

(** ** Equally ready tasks take turns *)

Lemma filter_all {A} (P : A → Prop) `{!∀ x, Decision (P x)} (l : list A) :
  (∀ x, x ∈ l → P x) → filter P l = l.
Proof.
  induction l as [|x l IH]; intros Hall; [done|].
  rewrite filter_cons_True by (apply Hall; left).
  f_equal. apply IH. intros y Hy. apply Hall. by right.
Qed.

(** Among at most 101 listed tasks with one and the same ready time the
    selection chooses the first and moves it behind the others. *)
Lemma select_equal_head (p : Pool) (h : TaskHandle) (l : list TaskHandle)
    (m : time_t) :
  pool_ok p → tasks p = h :: l → (length (tasks p) ≤ 101)%nat →
  m < time_t_max →
  (∀ x, x ∈ tasks p → ready_time (objects p) x = Some m) →
  ∃ s, select_task p =
         Some (with_tasks (l ++ [h]) p, s, [lock tasks_mutex; unlock tasks_mutex]) ∧
       scan_task s = Some h.
Proof.
  intros Hok Htasks Hlen Hm Hall.
  destruct (select_task_total p (pool_ok_total _ Hok)) as [[[p1 s] tr] Hsel].
  destruct (select_task_spec _ _ _ _ Hsel) as (Hinv & Hcons & Hp1 & ->).
  rewrite (filter_all _ _ (proj2 Hok)), take_ge in Hcons by done.
  assert (Hhin : h ∈ scan_considered s) by (rewrite Hcons, Htasks; left).
  assert (Htask : scan_task s = Some h).
  { pose proof (inv_task _ _ Hinv) as Htask.
    destruct (inv_min _ _ Hinv h Hhin) as (n & Hn & Hle).
    rewrite Hall in Hn by (rewrite Htasks; left). injection Hn as <-.
    destruct (scan_task s) as [t|] eqn:Ht; [|lia].
    destruct (chosen_considered _ _ _ Hinv Ht) as [Htin Hready].
    rewrite Hcons in Htin. rewrite (Hall _ Htin) in Hready.
    injection Hready as Hmin.
    unfold ties in Htask. rewrite <- Hmin, Hcons, filter_all in Htask by done.
    rewrite Htasks in Htask. by injection Htask as <-. }
  exists s. split; [|done].
  rewrite Hsel, Hp1, Htask, Htasks. unfold splice_end. cbn [erase].
  by rewrite decide_True.
Qed.

Lemma select_rounds_turns (k : nat) :
  ∀ (p : Pool) (m : time_t),
    pool_ok p → (length (tasks p) ≤ 101)%nat → m < time_t_max →
    (∀ h, h ∈ tasks p → ready_time (objects p) h = Some m) →
    (k ≤ length (tasks p))%nat →
    select_rounds k p =
      Some (with_tasks (drop k (tasks p) ++ take k (tasks p)) p,
            take k (tasks p)).
Proof.
  induction k as [|k IH]; intros p m Hok Hlen Hm Hall Hk.
  - cbn. rewrite drop_0, take_0, app_nil_r. by destruct p.
  - destruct (tasks p) as [|h l] eqn:Htasks; [cbn in Hk; lia|].
    destruct (select_equal_head p h l m Hok Htasks) as (s & Hsel & Ht);
      [by rewrite Htasks|done|by rewrite Htasks|].
    pose proof (select_task_ok _ _ _ _ Hok Hsel) as Hok1.
    cbn [select_rounds]. rewrite Hsel. cbn [mbind option_bind].
    rewrite (IH (with_tasks (l ++ [h]) p) m); cbn [tasks with_tasks objects].
    + cbn. rewrite Ht. cbn. cbn in Hk.
      rewrite take_app_le, drop_app_le by lia.
      by rewrite <- app_assoc.
    + done.
    + rewrite length_app. cbn in *. lia.
    + done.
    + intros x Hx. rewrite <- Htasks in Hall. apply Hall.
      rewrite Htasks. apply elem_of_app in Hx as [Hx|Hx%list_elem_of_singleton];
        [by right|subst; left].
    + rewrite length_app. cbn in *. lia.
Qed.

(** X7: when the listed tasks, at most 101 of them, all have the same
    ready time, [k] selections in a row choose the first [k] tasks of the
    list in list order, each once, and leave the list rotated by [k]; a
    full round chooses every task once and restores the list. *)
Theorem equal_tasks_served_in_turn (k : nat) (p : Pool) (m : time_t) :
  pool_ok p →
  (length (tasks p) ≤ 101)%nat →
  m < time_t_max →
  (∀ h, h ∈ tasks p → ready_time (objects p) h = Some m) →
  (k ≤ length (tasks p))%nat →
  select_rounds k p =
    Some (with_tasks (drop k (tasks p) ++ take k (tasks p)) p,
          take k (tasks p)) ∧
  select_rounds (length (tasks p)) p = Some (p, tasks p).
Proof.
  intros Hok Hlen Hm Hall Hk. split; [by eapply select_rounds_turns|].
  rewrite (select_rounds_turns _ p m) by done.
  rewrite drop_all, firstn_all. cbn. by destruct p.
Qed.

Lemma equal_tasks_served_in_turn_witness :
  select_rounds 2 (pool_of [worker 4; idler 4; faulty 4]) =
    Some (with_tasks [2; 0; 1]%nat (pool_of [worker 4; idler 4; faulty 4]),
          [0; 1]%nat).
Proof.
  apply (equal_tasks_served_in_turn 2 (pool_of [worker 4; idler 4; faulty 4]) 4).
  - split.
    + cbn. repeat (apply NoDup_cons; split; [absent|]). apply NoDup_nil_2.
    + intros h Hin. cbn in Hin.
      repeat (apply elem_of_cons in Hin as [->|Hin]; [reflexivity|]).
      by apply elem_of_nil in Hin.
  - cbn. lia.
  - reflexivity.
  - intros h Hin. cbn in Hin.
    repeat (apply elem_of_cons in Hin as [->|Hin]; [reflexivity|]).
    by apply elem_of_nil in Hin.
  - cbn. lia.
Defined.

(** ** Shutdown *)

Lemma no_wait_in_counter_locking (tr : list action) (d : Q) :
  Forall (λ a, a = lock counters_mutex ∨ a = unlock counters_mutex) tr →
  wait_for d ∉ tr.
Proof.
  intros Htr Hin. rewrite Forall_forall in Htr. by destruct (Htr _ Hin).
Qed.

(** A worker that is past line 157 when [shutdown] is set: lines 178-215
    on a live task. *)
Lemma execute_under_shutdown (r : Readings) (t : TaskHandle) (q : Pool)
    (ti : TaskInfo) :
  shutdown q = true → objects q !! t = Some ti → removed ti = false →
  ∃ b p2 tr,
    execute r t q = Some b ∧
    call_function t ∈ block_trace b ∧
    (∀ done_work, outcome (function ti) = Some done_work →
       store_next_time t (time_191 r + (if done_work then 0 else sleep_seconds))
         ∈ block_trace b ∧
       ready_time (objects p2) t =
         Some (time_191 r + (if done_work then 0 else sleep_seconds))) ∧
    complete b = (p2, loop_break, tr) ∧
    (∀ d, wait_for d ∉ tr) ∧
    shutdown p2 = true ∧
    tasks p2 = tasks q ∧
    (∀ name, counter_value name (counters p2) = counter_value name (counters q)).
Proof.
  intros Hdown Hq Hr.
  destruct (invoke_outcome (function ti) (counters q) ∅)
    as (shared & diff & tr & Hinv & Htr).
  assert (Hlock : ∀ d, wait_for d ∉
            (if bool_decide (diff = ∅) then []
             else [lock counters_mutex; unlock counters_mutex])).
  { intros d. case_bool_decide; absent. }
  pose proof (λ name, invoke_then_subtract_back _ _ _ _ _ _ name Hinv) as Hback.
  unfold execute. rewrite Hq. cbn. rewrite Hr, Hinv.
  destruct (outcome (function ti)) as [done_work|];
    eexists _, _, _; (split; [done|]); cbn [block_trace];
    (split; [do 2 right; left|]); unfold complete; cbn [block_exit];
    rewrite finish_spec; cbn; rewrite Hdown;
    (split; [|split; [done|split; [|done]]]).
  - intros ? [= <-]. split.
    + do 3 right. apply elem_of_app. right. left.
    + unfold ready_time. cbn. by rewrite lookup_insert_eq.
  - intros d. rewrite app_nil_r.
    intros [?|[?|[?|Hin]%elem_of_cons]%elem_of_cons]%elem_of_cons; try done.
    apply elem_of_app in Hin as [Hin|Hin].
    + apply elem_of_app in Hin as [Hin|Hin].
      * by apply no_wait_in_counter_locking in Hin.
      * revert Hin. absent.
    + by apply Hlock in Hin.
  - done.
  - intros d. rewrite app_nil_r.
    intros [?|[?|[?|Hin]%elem_of_cons]%elem_of_cons]%elem_of_cons; try done.
    apply elem_of_app in Hin as [Hin|Hin].
    + apply elem_of_app in Hin as [Hin|Hin].
      * by apply no_wait_in_counter_locking in Hin.
      * revert Hin. absent.
    + apply elem_of_cons in Hin as [?|Hin]; [done|]. by apply Hlock in Hin.
Qed.

(** X8: the destructor sets [shutdown] and notifies every waiting worker.
    A worker then leaves the loop at the first test of the flag it comes
    to.  At the loop test, where a worker woken from the wait of
    lines 162-165 arrives as well, it leaves at once.  A worker that comes
    to line 157 with the flag set has made its selection (which may move a
    task to the end of the list) and leaves by the [break] of line 158: it
    waits for nothing, calls no task, and leaves the tasks and the counters
    as they are.  A worker that is past line 157, as one woken from the
    wait of lines 173-175, does not test the flag before its task: it
    calls the task if it is not removed, stores the ready time of line 191
    when the callable returns, takes the counters back, and only then
    leaves, by the [break] of line 209 and without the wait of line 214;
    if the task is removed by then it goes back to the loop test. *)
Theorem shutdown_stops_worker (first_draw : Q) (rs : list Readings)
    (r : Readings) (p : Pool) :
  (∀ h, h ∈ tasks p → is_Some (objects p !! h)) →
  ∃ q q',
    destructor p = (q, [notify_all]) ∧
    shutdown q = true ∧
    tasks q = tasks p ∧ objects q = objects p ∧ counters q = counters p ∧
    threadFunction first_draw rs q = Some (q, [sleep_for first_draw]) ∧
    while_not_shutdown rs q = Some (q, []) ∧
    loop_body r q =
      Some (q', loop_break, [lock tasks_mutex; unlock tasks_mutex]) ∧
    tasks q' ≡ₚ tasks p ∧ objects q' = objects p ∧ counters q' = counters p ∧
    (∀ t ti, objects p !! t = Some ti → removed ti = false →
       ∃ b p2 tr,
         execute r t q = Some b ∧
         call_function t ∈ block_trace b ∧
         (∀ done_work, outcome (function ti) = Some done_work →
            store_next_time t
              (time_191 r + (if done_work then 0 else sleep_seconds))
              ∈ block_trace b ∧
            ready_time (objects p2) t =
              Some (time_191 r + (if done_work then 0 else sleep_seconds))) ∧
         complete b = (p2, loop_break, tr) ∧
         (∀ d, wait_for d ∉ tr) ∧
         shutdown p2 = true ∧
         tasks p2 = tasks p ∧
         (∀ name, counter_value name (counters p2)
                  = counter_value name (counters p))) ∧
    (∀ t ti, objects p !! t = Some ti → removed ti = true →
       ∃ b,
         execute r t q = Some b ∧
         complete b = (q, loop_continue, [read_lock t; read_unlock t]) ∧
         while_not_shutdown rs q = Some (q, [])).
Proof.
  intros Hall.
  set (q := mkPool (tasks p) (objects p) (counters p) true).
  destruct (select_task_total q Hall) as [[[q' s] tr] Hsel].
  destruct (select_task_spec _ _ _ _ Hsel) as (_ & _ & _ & ->).
  destruct (select_task_objects _ _ _ _ Hsel) as (Hobj & Hcnt & Hshut).
  exists q, q'. do 5 (split; [done|]).
  split; [|split; [|split; [|split; [|split; [done|split; [done|split]]]]]].
  - unfold threadFunction. by rewrite while_not_shutdown_stops.
  - by apply while_not_shutdown_stops.
  - unfold loop_body, try_block. rewrite Hsel. cbn. unfold after_select.
    by rewrite Hshut.
  - apply (select_task_Permutation _ _ _ _ Hsel).
  - intros t ti Hti Hr. by apply (execute_under_shutdown r t q ti).
  - intros t ti Hti Hr. eexists. split; [|split].
    + unfold execute. change (objects q) with (objects p).
      rewrite Hti. cbn. by rewrite Hr.
    + done.
    + by apply while_not_shutdown_stops.
Qed.

Lemma shutdown_stops_worker_witness :
  (∃ q',
     loop_body (mkReadings (0, 2 ^ 31)%N 5 7)
       (destructor (pool_of [worker 0; idler 30])).1 =
       Some (q', loop_break, [lock tasks_mutex; unlock tasks_mutex]) ∧
     tasks q' = [1; 0]%nat) ∧
  (∃ b p2,
     execute (mkReadings (0, 2 ^ 31)%N 5 7) 0%nat
       (destructor (pool_of [worker 0; idler 30])).1 = Some b ∧
     complete b =
       (p2, loop_break,
        [read_lock 0%nat; metric_increment; call_function 0%nat;
         store_next_time 0%nat 7; metric_decrement; read_unlock 0%nat]) ∧
     ready_time (objects p2) 0%nat = Some 7 ∧
     shutdown p2 = true).
Proof.
  destruct (shutdown_stops_worker (1 # 3) [] (mkReadings (0, 2 ^ 31)%N 5 7)
              (pool_of [worker 0; idler 30]))
    as (q & q' & Hd & _ & _ & _ & _ & _ & _ & Hbody & _ & _ & _ & Hpast & _).
  { intros h Hin. cbn in Hin.
    repeat (apply elem_of_cons in Hin as [->|Hin]; [by eexists|]).
    by apply elem_of_nil in Hin. }
  injection Hd as <-. split.
  - exists q'. split; [exact Hbody|].
    vm_compute in Hbody. by injection Hbody as <-.
  - destruct (Hpast 0%nat (worker 0) eq_refl eq_refl)
      as (b & p2 & tr & Hb & _ & Hstore & Hc & _ & Hdown & _).
    exists b, p2. split; [exact Hb|].
    destruct (Hstore true eq_refl) as [_ Hready].
    split; [|by split].
    rewrite Hc. vm_compute in Hb. injection Hb as <-.
    vm_compute in Hc. by injection Hc as _ <-.
Defined.

(** ** The flag [removed] is never cleared *)

(** X9: no operation of the pool clears [removed]: a task that is flagged
    stays flagged through [addTask], [removeTask], [wake] and any
    iteration of a worker. *)
Theorem removed_never_cleared (p : Pool) (h : TaskHandle) :
  (removed <$> objects p !! h) = Some true →
  (∀ task, (removed <$> objects (addTask task p).1.2 !! h) = Some true) ∧
  (∀ h' p' tr, removeTask h' p = Some (p', tr) →
               (removed <$> objects p' !! h) = Some true) ∧
  (∀ now h' p' tr, wake now h' p = Some (p', tr) →
                   (removed <$> objects p' !! h) = Some true) ∧
  (∀ r p' c tr, loop_body r p = Some (p', c, tr) →
                (removed <$> objects p' !! h) = Some true).
Proof.
  intros Hflag. split; [|split; [|split]].
  - intros task. unfold addTask. cbn. rewrite lookup_insert_ne; [done|].
    intros <-. pose proof (is_fresh (dom (objects p))) as Hfresh.
    apply not_elem_of_dom in Hfresh. by rewrite Hfresh in Hflag.
  - intros h' p' tr. unfold removeTask.
    destruct (objects p !! h') as [ti|] eqn:Hh'; [|done]. cbn.
    assert (Hins : (removed <$> <[h' := set_removed true ti]> (objects p) !! h)
                   = Some true).
    { rewrite lookup_insert. by destruct (decide (h' = h)). }
    destruct (removed ti); by intros [= <- _].
  - intros now h' p' tr. unfold wake.
    destruct (objects p !! h') as [ti|] eqn:Hh'; [|done]. cbn.
    destruct (removed ti) eqn:Hr; [by intros [= <- _]|].
    case_bool_decide; intros [= <- _]; cbn; [|done].
    rewrite lookup_insert. destruct (decide (h' = h)) as [<-|]; [|done].
    rewrite Hh' in Hflag. cbn in Hflag. congruence.
  - intros r p' c tr Hbody. by rewrite (loop_body_removed _ _ _ _ _ h Hbody).
Qed.

Lemma removed_never_cleared_witness :
  ∃ p',
    wake 5 0%nat (pool_of [retired 9; idler 30]) = Some (p', []) ∧
    (removed <$> objects p' !! 0%nat) = Some true.
Proof.
  eexists. split; [reflexivity|].
  apply (proj1 (proj2 (proj2
           (removed_never_cleared (pool_of [retired 9; idler 30]) 0%nat eq_refl)))
           5 0%nat _ []).
  reflexivity.
Defined.

(** ** Back-off *)

(** An iteration whose chosen task returns, in one equation. *)
Lemma loop_body_returns (r : Readings) (p p1 : Pool) (s : Scan)
    (tr1 : list action) (t : TaskHandle) (ti : TaskInfo) (done_work : bool) :
  select_task p = Some (p1, s, tr1) → scan_task s = Some t →
  shutdown p = false → objects p !! t = Some ti → removed ti = false →
  outcome (function ti) = Some done_work →
  ∃ shared diff tr,
    Forall (λ a, a = lock counters_mutex ∨ a = unlock counters_mutex) tr ∧
    loop_body r p =
      Some (with_counters (subtract_back diff shared)
              (with_object t
                 (set_next_time
                    (time_191 r + (if done_work then 0 else sleep_seconds)) ti)
                 (with_counters shared p1)),
            loop_end,
            tr1 ++ ready_wait r (scan_min_time s) ++
            [read_lock t; metric_increment; call_function t] ++ tr ++
            [store_next_time t
               (time_191 r + (if done_work then 0 else sleep_seconds));
             metric_decrement; read_unlock t] ++
            (if bool_decide (diff = ∅) then []
             else [lock counters_mutex; unlock counters_mutex])).
Proof.
  intros Hsel Ht Hup Hti Hr Hout.
  destruct (select_task_objects _ _ _ _ Hsel) as (Hobj & Hcnt & Hshut).
  destruct (invoke_outcome (function ti) (counters p1) ∅)
    as (shared & diff & tr & Hinv & Htr).
  rewrite Hout in Hinv.
  exists shared, diff, tr. split; [done|].
  unfold loop_body, try_block. rewrite Hsel. cbn. unfold after_select.
  rewrite Hshut, Hup, Ht. unfold execute. rewrite Hobj, Hti. cbn.
  rewrite Hr, Hinv. cbn. unfold complete. cbn. rewrite finish_spec. cbn.
  rewrite Hshut, Hup. cbn. rewrite app_nil_r. do 2 f_equal.
  rewrite <- !app_assoc. do 2 f_equal. cbn. by rewrite <- app_assoc.
Qed.

(** The selection in a pool with one listed task. *)
Lemma select_single (p : Pool) (t : TaskHandle) (ti : TaskInfo) :
  tasks p = [t] → objects p !! t = Some ti → removed ti = false →
  next_time_to_execute ti < time_t_max →
  select_task p =
    Some (p, mkScan 1 (next_time_to_execute ti) (Some t) [t],
          [lock tasks_mutex; unlock tasks_mutex]).
Proof.
  intros Htasks Hti Hr Hlt. unfold select_task. rewrite Htasks.
  rewrite bool_decide_eq_false_2 by done.
  rewrite (scan_cons _ _ _ _ ti), Hr by done.
  assert (Hv : visit t ti scan_start =
               mkScan 1 (next_time_to_execute ti) (Some t) [t]).
  { unfold visit. by rewrite bool_decide_eq_true_2. }
  rewrite Hv. cbn [scan_i]. rewrite bool_decide_eq_false_2 by lia.
  cbn. unfold splice_end. cbn. rewrite decide_True by done.
  destruct p. cbn in *. by subst.
Qed.

(** X10: in a pool with one task, after a run that returned [done_work]
    the ready time is [time(0)] plus nothing or plus [sleep_seconds];
    the next iteration waits for what is left of that time plus the value
    drawn if its clock is before the ready time, and does not wait at all
    otherwise; either way it then calls the task again. *)
Theorem idle_task_backs_off (r r' : Readings) (p : Pool) (t : TaskHandle)
    (ti : TaskInfo) (done_work : bool) :
  tasks p = [t] →
  objects p !! t = Some ti →
  removed ti = false →
  shutdown p = false →
  outcome (function ti) = Some done_work →
  next_time_to_execute ti < time_t_max →
  time_191 r + sleep_seconds < time_t_max →
  ∃ p1 tr1 p2 tr2,
    loop_body r p = Some (p1, loop_end, tr1) ∧
    ready_time (objects p1) t =
      Some (time_191 r + (if done_work then 0 else sleep_seconds)) ∧
    loop_body r' p1 = Some (p2, loop_end, tr2) ∧
    (time_170 r' < time_191 r + (if done_work then 0 else sleep_seconds) →
     wait_for (inject_Z (time_191 r + (if done_work then 0 else sleep_seconds)
                         - time_170 r') + jitter r')%Q ∈ tr2) ∧
    (time_191 r + (if done_work then 0 else sleep_seconds) ≤ time_170 r' →
     ∀ d, wait_for d ∉ tr2) ∧
    (call_function t ∈ tr2).
Proof.
  intros Htasks Hti Hr Hup Hout Hlt Hlt'.
  set (next := time_191 r + (if done_work then 0 else sleep_seconds)).
  assert (Hnext : next < time_t_max)
    by (unfold next, sleep_seconds in *; destruct done_work; lia).
  pose proof (select_single p t ti Htasks Hti Hr Hlt) as Hsel.
  destruct (loop_body_returns r p p _ _ t ti done_work Hsel eq_refl Hup Hti Hr Hout)
    as (shared & diff & tr & Htr & Hbody).
  set (p1 := with_counters (subtract_back diff shared)
               (with_object t (set_next_time next ti) (with_counters shared p))).
  fold next in Hbody. fold p1 in Hbody.
  assert (Hti1 : objects p1 !! t = Some (set_next_time next ti))
    by (unfold p1; cbn; by rewrite lookup_insert_eq).
  pose proof (select_single p1 t (set_next_time next ti) Htasks Hti1 Hr Hnext)
    as Hsel1.
  destruct (loop_body_returns r' p1 p1 _ _ t (set_next_time next ti) done_work
              Hsel1 eq_refl Hup Hti1 Hr Hout)
    as (shared' & diff' & tr' & Htr' & Hbody').
  eexists _, _, _, _. split; [exact Hbody|].
  split; [unfold ready_time; by rewrite Hti1|].
  split; [exact Hbody'|]. cbn [scan_min_time next_time_to_execute set_next_time].
  unfold ready_wait. split; [|split].
  - intros Hearly. rewrite bool_decide_eq_true_2 by lia.
    do 3 right. left.
  - intros Hlate d. rewrite bool_decide_eq_false_2 by lia. cbn.
    do 5 (apply not_elem_of_cons; split; [discriminate|]).
    apply not_elem_of_app. split.
    + intros Hin. rewrite Forall_forall in Htr'. by destruct (Htr' _ Hin).
    + do 3 (apply not_elem_of_cons; split; [discriminate|]).
      case_bool_decide; absent.
  - do 2 right. apply elem_of_app. right. do 2 right. left.
Qed.

Lemma idle_task_backs_off_witness :
  ∃ p1 tr1 p2 tr2,
    loop_body (mkReadings (0, 2 ^ 31)%N 5 7) (pool_of [idler 0]) =
      Some (p1, loop_end, tr1) ∧
    loop_body (mkReadings (0, 2 ^ 30)%N 8 20) p1 = Some (p2, loop_end, tr2) ∧
    (wait_for (inject_Z (7 + sleep_seconds - 8) + (1 # 4))%Q ∈ tr2).
Proof.
  destruct (idle_task_backs_off (mkReadings (0, 2 ^ 31)%N 5 7) (mkReadings (0, 2 ^ 30)%N 8 20)
              (pool_of [idler 0]) 0%nat (idler 0) false)
    as (p1 & tr1 & p2 & tr2 & H1 & _ & H3 & H4 & _); try reflexivity.
  exists p1, tr1, p2, tr2. split; [exact H1|]. split; [exact H3|].
  apply H4. reflexivity.
Defined.

(** ** Counters as a worker leaves them *)

Lemma while_not_shutdown_counters (rs : list Readings) (name : string) :
  ∀ p q tr, while_not_shutdown rs p = Some (q, tr) →
  counter_value name (counters q) = counter_value name (counters p).
Proof.
  induction rs as [|r rs IH]; intros p q tr Hrun; cbn in Hrun.
  { by injection Hrun as <- _. }
  destruct (shutdown p); [by injection Hrun as <- _|].
  destruct (loop_body r p) as [[[p1 c] tr1]|] eqn:Hbody; [|done].
  cbn in Hrun. pose proof (loop_body_counters _ _ _ _ _ name Hbody) as Hstep.
  assert (Hrest : ∀ x, (while_not_shutdown rs p1 ≫=
                          λ '(p2, tr'), Some (p2, tr1 ++ tr')) = Some x →
            counter_value name (counters x.1) = counter_value name (counters p)).
  { intros x Hx.
    destruct (while_not_shutdown rs p1) as [[p2 tr']|] eqn:Hrun'; [|done].
    cbn in Hx. injection Hx as <-. cbn. rewrite <- Hstep. by eapply IH. }
  destruct c.
  - injection Hrun as <- _. done.
  - by apply (Hrest _ Hrun).
  - by apply (Hrest _ Hrun).
Qed.

(** X11: [getCounter] reads zero for a name without entry and leaves a
    zero entry behind, but no reading ever changes by it; and whatever
    the tasks add through their contexts, and however they end, every
    counter reads after any number of iterations of a worker what it read
    before. *)
Theorem counters_read_as_before (name name' : string) (p : Pool) :
  (counters p !! name = None → (getCounter name p).1.1 = 0) ∧
  counters (getCounter name p).1.2 !! name = Some (getCounter name p).1.1 ∧
  (getCounter name' (getCounter name p).1.2).1.1 = (getCounter name' p).1.1 ∧
  (∀ first_draw rs q tr,
     threadFunction first_draw rs p = Some (q, tr) →
     (getCounter name q).1.1 = (getCounter name p).1.1).
Proof.
  unfold getCounter. cbn. split; [|split; [|split]].
  - unfold counter_value. by intros ->.
  - unfold counter_add. rewrite lookup_insert_eq. f_equal. lia.
  - rewrite counter_value_add. destruct (decide (name = name')); lia.
  - intros first_draw rs q tr. unfold threadFunction.
    destruct (while_not_shutdown rs p) as [[q' tr']|] eqn:Hrun; [|done].
    cbn. intros [= <- _]. by eapply while_not_shutdown_counters.
Qed.

Lemma counters_read_as_before_witness :
  ∃ q tr,
    threadFunction (1 # 3) [mkReadings (0, 2 ^ 31)%N 5 7] (pool_of [faulty 0]) =
      Some (q, tr) ∧
    counters q !! "x" = Some 0 ∧
    (getCounter "x" q).1.1 = (getCounter "x" (pool_of [faulty 0])).1.1.
Proof.
  eexists _, _. split; [vm_compute; reflexivity|]. split; [reflexivity|].
  eapply (proj2 (proj2 (proj2
            (counters_read_as_before "x" "x" (pool_of [faulty 0]))))
            (1 # 3) [mkReadings (0, 2 ^ 31)%N 5 7]).
  vm_compute. reflexivity.
Defined.

(** * Properties of the file-size ledger *)

(** ** Decimal digits *)

Lemma digit_char_code (d : N) :
  (d < 10)%N → Ascii.N_of_ascii (digit_char d) = (48 + d)%N.
Proof.
  intros Hd. unfold digit_char. apply Ascii.N_ascii_embedding. lia.
Qed.

Lemma digit_of_digit_char (d : N) :
  (d < 10)%N → digit_of (digit_char d) = Some d.
Proof.
  intros Hd. unfold digit_of. rewrite digit_char_code by done.
  replace ((48 <=? 48 + d)%N && (48 + d <=? 57)%N) with true.
  - f_equal. lia.
  - symmetry. apply andb_true_intro. split; apply N.leb_le; lia.
Qed.

(** Reading the digits that [to_digits] wrote gives the number back. *)
Lemma parse_to_digits (fuel : nat) :
  ∀ n rest, (n < 2 ^ N.of_nat fuel)%N →
  ∃ k, ∀ a, parse_digits a (to_digits fuel n rest) =
            parse_digits (a * 10 ^ k + n)%N rest.
Proof.
  induction fuel as [|fuel IH]; intros n rest Hn.
  - exists 0%N. intros a. cbn in *. f_equal. lia.
  - cbn [to_digits].
    assert (Hd : (n mod 10 < 10)%N) by (apply N.mod_lt; lia).
    assert (Hdiv : (n = 10 * (n / 10) + n mod 10)%N) by (apply N.div_mod; lia).
    destruct (n / 10 =? 0)%N eqn:Hq.
    + apply N.eqb_eq in Hq. exists 1%N. intros a. cbn [parse_digits].
      rewrite digit_of_digit_char by done. f_equal. lia.
    + apply N.eqb_neq in Hq.
      destruct (IH (n / 10)%N (String (digit_char (n mod 10)) rest)) as [k Hk].
      { rewrite Nat2N.inj_succ, N.pow_succ_r' in Hn.
        generalize dependent (2 ^ N.of_nat fuel)%N.
        generalize dependent (n / 10)%N. generalize dependent (n mod 10)%N.
        intros. lia. }
      exists (k + 1)%N. intros a. rewrite Hk. cbn [parse_digits].
      rewrite digit_of_digit_char by done. f_equal.
      rewrite N.pow_add_r. lia.
Qed.

Lemma to_digits_head (fuel : nat) :
  ∀ n rest, ∃ d rest',
    (d < 10)%N ∧ to_digits (S fuel) n rest = String (digit_char d) rest'.
Proof.
  induction fuel as [|fuel IH]; intros n rest.
  - exists (n mod 10)%N, rest. split; [apply N.mod_lt; lia|].
    cbn. by destruct (n / 10 =? 0)%N.
  - cbn [to_digits]. destruct (n / 10 =? 0)%N.
    + exists (n mod 10)%N, rest. split; [apply N.mod_lt; lia|done].
    + apply IH.
Qed.

(** [std::stoull(std::to_string(n))] is [n] for every 64-bit [n]. *)
Lemma stoull_to_string (n : N) :
  (n < 2 ^ 64)%N → stoull (to_string n) = inl n.
Proof.
  intros Hn. unfold to_string.
  destruct (to_digits_head (N.to_nat (N.log2 n)) n "") as (d & rest & Hd & Hhead).
  destruct (parse_to_digits (S (N.to_nat (N.log2 n))) n "") as [k Hk].
  { rewrite Nat2N.inj_succ, N2Nat.id.
    destruct (decide (n = 0%N)) as [->|Hpos]; [done|].
    apply N.log2_spec. lia. }
  specialize (Hk 0%N). cbn [parse_digits] in Hk.
  replace (0 * 10 ^ k + n)%N with n in Hk by lia.
  unfold stoull. rewrite Hhead in *.
  assert (Hcode := digit_char_code d Hd).
  cbn [skip_space]. unfold is_space. rewrite Hcode.
  replace ((48 + d =? 32)%N || (9 <=? 48 + d)%N && (48 + d <=? 13)%N) with false.
  2:{ symmetry. apply orb_false_intro; [apply N.eqb_neq; lia|].
      apply andb_false_intro2. apply N.leb_gt. lia. }
  rewrite Hcode.
  replace (48 + d =? 43)%N with false by (symmetry; apply N.eqb_neq; lia).
  replace (48 + d =? 45)%N with false by (symmetry; apply N.eqb_neq; lia).
  cbn [starts_with_digit]. rewrite digit_of_digit_char by done.
  rewrite bool_decide_eq_true_2 by (by eexists).
  rewrite Hk. by replace (2 ^ 64 <=? n)%N with false
    by (symmetry; apply N.leb_gt; lia).
Qed.

(** ** The property tree *)

Lemma find_replace_same (k : string) (c' : ptree) (cs : list (string * ptree)) :
  is_Some (find_child k cs) → find_child k (replace_child k c' cs) = Some c'.
Proof.
  induction cs as [|[k0 c0] cs IH]; cbn; [by intros [? ?]|].
  destruct (decide (k0 = k)) as [->|Hne]; cbn.
  - by rewrite decide_True.
  - rewrite decide_False by done. apply IH.
Qed.

Lemma find_replace_other (k k' : string) (c' : ptree) (cs : list (string * ptree)) :
  k ≠ k' → find_child k' (replace_child k c' cs) = find_child k' cs.
Proof.
  intros Hne. induction cs as [|[k0 c0] cs IH]; cbn; [done|].
  destruct (decide (k0 = k)) as [->|Hk]; cbn.
  - by rewrite !decide_False by done.
  - destruct (decide (k0 = k')); [done|apply IH].
Qed.

Lemma find_app_new (k k' : string) (c' : ptree) (cs : list (string * ptree)) :
  find_child k' (cs ++ [(k, c')]) =
    match find_child k' cs with
    | Some c => Some c
    | None => if decide (k = k') then Some c' else None
    end.
Proof.
  induction cs as [|[k0 c0] cs IH]; cbn; [done|].
  destruct (decide (k0 = k')); [done|apply IH].
Qed.

(** The node a path leads to after [put] on that path holds the value. *)
Lemma walk_put_same (path : list string) (v : string) :
  ∀ t, ptree_data <$> walk_path path (put_path path v t) = Some v.
Proof.
  induction path as [|k path IH]; intros t; [done|].
  cbn [put_path]. destruct (find_child k (ptree_children t)) as [c|] eqn:Hk; cbn.
  - rewrite find_replace_same by (by eexists). cbn. apply IH.
  - rewrite find_app_new, Hk, decide_True by done. cbn. apply IH.
Qed.

(** [put] leaves the data at every path that is not an initial part of
    the path it writes. *)
Lemma walk_put_other (path1 : list string) (v : string) :
  ∀ path2 t, ¬ path2 `prefix_of` path1 →
  ptree_data <$> walk_path path2 (put_path path1 v t) =
  ptree_data <$> walk_path path2 t.
Proof.
  induction path1 as [|k1 path1 IH]; intros path2 t Hpre.
  - destruct path2 as [|k2 path2]; [by destruct Hpre|]. by destruct t.
  - destruct path2 as [|k2 path2]; [destruct Hpre; apply prefix_nil|].
    cbn [put_path walk_path].
    destruct (decide (k1 = k2)) as [<-|Hne].
    + assert (Hpre' : ¬ path2 `prefix_of` path1).
      { intros Hp. apply Hpre. by apply prefix_cons. }
      destruct (find_child k1 (ptree_children t)) as [c|] eqn:Hk; cbn.
      * rewrite find_replace_same by (by eexists). cbn. by apply IH.
      * rewrite find_app_new, Hk, decide_True by done. cbn.
        rewrite IH by done.
        destruct path2 as [|k3 path2]; [destruct Hpre'; apply prefix_nil|done].
    + destruct (find_child k1 (ptree_children t)) as [c|] eqn:Hk; cbn.
      * by rewrite find_replace_other.
      * rewrite find_app_new, decide_False by done.
        by destruct (find_child k2 (ptree_children t)).
Qed.

(** ** Keys *)

Lemma split_path_nonempty (s : string) : split_path s ≠ [].
Proof.
  destruct s as [|c s]; cbn; [done|].
  destruct (Ascii.N_of_ascii c =? 46)%N; [done|].
  by destruct (split_path s).
Qed.

Lemma split_path_app (a b : string) :
  dot_free a →
  split_path (String.append a (String (Ascii.ascii_of_N 46) b)) = a :: split_path b.
Proof.
  unfold dot_free. induction a as [|c a IH]; intros Ha; [done|].
  change (String.append (String c a) ?x) with (String c (String.append a x)).
  cbn [split_path] in *.
  destruct (Ascii.N_of_ascii c =? 46)%N; [by injection Ha|].
  destruct (split_path a) as [|k ks] eqn:Hsplit;
    [by apply split_path_nonempty in Hsplit|].
  injection Ha as -> ->. by rewrite IH.
Qed.

(** The path of the key of a file whose escaped name holds no ['.']. *)
Lemma size_key_path (nm : Names) (file : string) :
  dot_free (escapeForFileName nm (getFileName nm file)) →
  split_path (size_key nm file) =
    ["yandex"; escapeForFileName nm (getFileName nm file); "size"].
Proof.
  intros Hfree. unfold size_key.
  change (String.append "yandex." (String.append ?e ".size")) with
    (String.append "yandex"
       (String (Ascii.ascii_of_N 46)
          (String.append e (String (Ascii.ascii_of_N 46) "size")))).
  rewrite split_path_app by reflexivity. by rewrite split_path_app.
Qed.

(** ** Records *)

Lemma get_put_same (path v : string) (t : ptree) :
  get_optional path (put path v t) = Some v.
Proof. apply walk_put_same. Qed.

(** Writing the record of one file leaves the record of a file with
    another escaped name alone. *)
Lemma get_put_other (nm : Names) (f g v : string) (t : ptree) :
  dot_free (record_name nm f) → dot_free (record_name nm g) →
  record_name nm f ≠ record_name nm g →
  get_optional (size_key nm g) (put (size_key nm f) v t) =
  get_optional (size_key nm g) t.
Proof.
  intros Hf Hg Hne. unfold get_optional, put.
  rewrite !size_key_path by done. apply walk_put_other.
  intros Hpre. apply Hne. fold (record_name nm f) (record_name nm g) in Hpre.
  apply prefix_cons_inv_2 in Hpre. by apply prefix_cons_inv_1 in Hpre.
Qed.

Lemma size_key_same (nm : Names) (f g : string) :
  record_name nm f = record_name nm g → size_key nm f = size_key nm g.
Proof. unfold size_key, record_name. by intros ->. Qed.

(** [check] against a record that holds the decimal text of a size. *)
Lemma check_against (nm : Names) (disk : Disk) (fc : FileChecker)
    (file : string) (expected : N) :
  (expected < 2 ^ 64)%N →
  get_optional (size_key nm file) (files_info fc) = Some (to_string expected) →
  check nm disk fc file =
    match disk !! file with
    | None => (inr (file_not_found file), [])
    | Some real =>
        if decide (real = expected) then (inl true, [])
        else (inl false, [log_error file real expected])
    end.
Proof.
  intros Hlt Hget. unfold check. by rewrite Hget, stoull_to_string.
Qed.

(** ** Update, then check *)

(** X12: [update] of a file that exists records its size and writes the
    tree once; [check] of that file then succeeds without logging while
    the size stays, reports and logs the two sizes once the size differs,
    and throws once the file is gone. *)
Theorem check_after_update (nm : Names) (disk : Disk) (fc : FileChecker)
    (file : string) (size : N) :
  disk !! file = Some size →
  (size < 2 ^ 64)%N →
  ∃ fc',
    update nm disk fc file =
      (fc', None, [write_xml (files_info_path fc) (files_info fc')]) ∧
    files_info_path fc' = files_info_path fc ∧
    get_optional (size_key nm file) (files_info fc') = Some (to_string size) ∧
    check nm disk fc' file = (inl true, []) ∧
    (∀ disk' size', disk' !! file = Some size' → size' ≠ size →
       check nm disk' fc' file = (inl false, [log_error file size' size])) ∧
    (∀ disk', disk' !! file = None →
       check nm disk' fc' file = (inr (file_not_found file), [])).
Proof.
  intros Hdisk Hlt. unfold update, updateTree. rewrite Hdisk.
  eexists. split; [reflexivity|]. cbn. split; [done|].
  assert (Hget : get_optional (size_key nm file)
                   (put (size_key nm file) (to_string size) (files_info fc)) =
                 Some (to_string size)) by apply get_put_same.
  split; [done|]. split; [|split].
  - rewrite (check_against _ _ _ _ size) by done.
    by rewrite Hdisk, decide_True.
  - intros disk' size' Hdisk' Hne.
    rewrite (check_against _ _ _ _ size) by done.
    by rewrite Hdisk', decide_False.
  - intros disk' Hdisk'. rewrite (check_against _ _ _ _ size) by done.
    by rewrite Hdisk'.
Qed.

Lemma check_after_update_witness :
  ∃ fc',
    update plain_names {["data.bin" := 1234%N]}
      (new_FileChecker "sizes.xml" None) "data.bin" =
      (fc', None, [write_xml "sizes.xml" (files_info fc')]) ∧
    check plain_names {["data.bin" := 1234%N]} fc' "data.bin" = (inl true, []) ∧
    check plain_names {["data.bin" := 99%N]} fc' "data.bin" =
      (inl false, [log_error "data.bin" 99 1234]).
Proof.
  destruct (check_after_update plain_names {["data.bin" := 1234%N]}
              (new_FileChecker "sizes.xml" None) "data.bin" 1234)
    as (fc' & Hup & _ & _ & Hsame & Hdiff & _); [reflexivity|reflexivity|].
  exists fc'. split; [exact Hup|]. split; [exact Hsame|].
  apply Hdiff; [reflexivity|discriminate].
Defined.

(** X13: records are kept by escaped file name.  [update] of one file
    changes the outcome of [check] for no file recorded under another
    name; but a file that has the same name, in whatever directory,
    shares the record: after [update] of one, [check] of the other
    compares with the size of the first. *)
Theorem records_by_file_name (nm : Names) (disk : Disk) (fc : FileChecker)
    (f g : string) (size : N) :
  disk !! f = Some size →
  (size < 2 ^ 64)%N →
  ∃ fc',
    update nm disk fc f =
      (fc', None, [write_xml (files_info_path fc) (files_info fc')]) ∧
    (dot_free (record_name nm f) → dot_free (record_name nm g) →
     record_name nm f ≠ record_name nm g →
     ∀ disk', check nm disk' fc' g = check nm disk' fc g) ∧
    (record_name nm f = record_name nm g →
     ∀ disk' size', disk' !! g = Some size' →
       check nm disk' fc' g =
         if decide (size' = size) then (inl true, [])
         else (inl false, [log_error g size' size])).
Proof.
  intros Hdisk Hlt. unfold update, updateTree. rewrite Hdisk.
  eexists. split; [reflexivity|]. cbn. split.
  - intros Hf Hg Hne disk'. unfold check. cbn.
    by rewrite get_put_other.
  - intros Hsame disk' size' Hdisk'.
    rewrite (check_against _ _ _ _ size), Hdisk'; [done|done|]. cbn.
    rewrite <- (size_key_same nm f g Hsame). apply get_put_same.
Qed.

Lemma records_by_file_name_witness :
  ∃ fc',
    update (mkNames (λ s, s) (λ s, "part")) {["a/part" := 7%N; "b/part" := 8%N]}
      (new_FileChecker "sizes.xml" None) "a/part" =
      (fc', None, [write_xml "sizes.xml" (files_info fc')]) ∧
    check (mkNames (λ s, s) (λ s, "part")) {["a/part" := 7%N; "b/part" := 8%N]}
      fc' "b/part" = (inl false, [log_error "b/part" 8 7]).
Proof.
  destruct (records_by_file_name (mkNames (λ s, s) (λ s, "part"))
              {["a/part" := 7%N; "b/part" := 8%N]}
              (new_FileChecker "sizes.xml" None) "a/part" "b/part" 7)
    as (fc' & Hup & _ & Hshared); [reflexivity|reflexivity|].
  exists fc'. split; [exact Hup|].
  rewrite (Hshared eq_refl _ 8%N) by reflexivity. reflexivity.
Defined.

(** ** Checking a range *)

Lemma check_range_spec (nm : Names) (disk : Disk) (fc : FileChecker)
    (files : list string) :
  ∀ acc,
    (∀ f, f ∈ files → ∃ b, (check nm disk fc f).1 = inl b) →
    check_range nm disk fc files acc =
      (inl (acc && forallb (λ f, bool_decide ((check nm disk fc f).1 = inl true))
                     files),
       concat (map (λ f, (check nm disk fc f).2) files)).
Proof.
  induction files as [|f files IH]; intros acc Hall.
  - cbn. by rewrite andb_true_r.
  - cbn [check_range forallb map concat].
    destruct (Hall f) as [b Hb]; [left|].
    destruct (check nm disk fc f) as [[b'|e] log] eqn:Hf; cbn in Hb; [|done].
    injection Hb as ->. rewrite IH by (intros g Hg; apply Hall; by right). cbn.
    f_equal. f_equal. destruct b.
    + rewrite bool_decide_eq_true_2 by done. by rewrite andb_true_r.
    + rewrite bool_decide_eq_false_2 by done. cbn. by rewrite andb_false_r.
Qed.

(** X14: [check] of a range looks at every file even after a mismatch:
    when no single check throws, the result is true exactly when every
    file passes, and what is logged is what the single checks log, file
    by file. *)
Theorem check_range_checks_all (nm : Names) (disk : Disk) (fc : FileChecker)
    (files : list string) :
  (∀ f, f ∈ files → ∃ b, (check nm disk fc f).1 = inl b) →
  ∃ b,
    check_range nm disk fc files true =
      (inl b, concat (map (λ f, (check nm disk fc f).2) files)) ∧
    (b = true ↔ ∀ f, f ∈ files → (check nm disk fc f).1 = inl true).
Proof.
  intros Hall. rewrite check_range_spec by done. cbn.
  eexists. split; [reflexivity|].
  rewrite forallb_forall. split.
  - intros Hb f Hin. apply list_elem_of_In in Hin.
    by apply Hb, bool_decide_eq_true in Hin.
  - intros Hb f Hin. apply bool_decide_eq_true. apply Hb.
    by apply list_elem_of_In.
Qed.

Lemma check_range_checks_all_witness :
  check_range plain_names {["a" := 5%N; "b" := 9%N; "c" := 1%N]}
    (update_range plain_names {["a" := 1234%N; "b" := 0%N; "c" := 1%N]}
       (new_FileChecker "sizes.xml" None) ["a"; "b"; "c"]).1.1
    ["a"; "b"; "c"] true =
  (inl false, [log_error "a" 5 1234; log_error "b" 9 0]).
Proof.
  destruct (check_range_checks_all plain_names
              {["a" := 5%N; "b" := 9%N; "c" := 1%N]}
              (update_range plain_names {["a" := 1234%N; "b" := 0%N; "c" := 1%N]}
                 (new_FileChecker "sizes.xml" None) ["a"; "b"; "c"]).1.1
              ["a"; "b"; "c"]) as (b & Hrange & _).
  { intros f Hin.
    repeat (apply elem_of_cons in Hin as [->|Hin]; [by eexists|]).
    by apply elem_of_nil in Hin. }
  rewrite Hrange. vm_compute in Hrange. by injection Hrange as <-.
Defined.

(** ** Updating a range *)

Lemma update_trees_app (nm : Names) (disk : Disk) (pre rest : list string) :
  ∀ fc, update_trees nm disk fc (pre ++ rest) =
        match update_trees nm disk fc pre with
        | (fc', None) => update_trees nm disk fc' rest
        | (fc', Some e) => (fc', Some e)
        end.
Proof.
  induction pre as [|f pre IH]; intros fc; [done|].
  cbn [update_trees app]. destruct (updateTree nm disk fc f) as [fc1 [e|]];
    [done|apply IH].
Qed.

(** The records after [updateTree] of every file of a list, all of which
    exist: those of [prev], recorded before, and those of the list. *)
Lemma update_trees_records (nm : Names) (disk : Disk) (files : list string) :
  ∀ (prev : list string) (fc : FileChecker),
    (∀ f, f ∈ prev ++ files → dot_free (record_name nm f)) →
    (∀ f g, f ∈ prev ++ files → g ∈ prev ++ files →
            record_name nm f = record_name nm g → disk !! f = disk !! g) →
    (∀ f, f ∈ files → is_Some (disk !! f)) →
    (∀ f, f ∈ prev → recorded nm disk fc f) →
    ∃ fc',
      update_trees nm disk fc files = (fc', None) ∧
      files_info_path fc' = files_info_path fc ∧
      (∀ f, f ∈ prev ++ files → recorded nm disk fc' f) ∧
      (∀ g, dot_free (record_name nm g) →
            (∀ f, f ∈ files → record_name nm f ≠ record_name nm g) →
            get_optional (size_key nm g) (files_info fc') =
            get_optional (size_key nm g) (files_info fc)).
Proof.
  induction files as [|f files IH]; intros prev fc Hfree Hcons Hexist Hprev.
  - exists fc. rewrite app_nil_r. by repeat split.
  - destruct (Hexist f) as [size Hsize]; [left|].
    cbn [update_trees]. unfold updateTree. rewrite Hsize.
    set (fc1 := mkFileChecker _ _).
    assert (Hin_f : f ∈ prev ++ f :: files) by (apply elem_of_app; right; left).
    assert (Hprev1 : ∀ x, x ∈ prev ++ [f] → recorded nm disk fc1 x).
    { intros x [Hx| ->%list_elem_of_singleton]%elem_of_app.
      - destruct (Hprev x Hx) as (sx & Hsx & Hgx).
        assert (Hin_x : x ∈ prev ++ f :: files) by (apply elem_of_app; by left).
        exists sx. split; [done|]. unfold fc1. cbn [files_info].
        destruct (decide (record_name nm f = record_name nm x)) as [Heq|Hne].
        + rewrite <- (size_key_same nm f x Heq), get_put_same.
          specialize (Hcons f x Hin_f Hin_x Heq).
          rewrite Hsize, Hsx in Hcons. by injection Hcons as ->.
        + rewrite get_put_other; auto.
      - exists size. split; [done|]. apply get_put_same. }
    destruct (IH (prev ++ [f]) fc1) as (fc' & Hrun & Hpath & Hrec & Hframe).
    + intros x Hx. apply Hfree. by rewrite <- app_assoc in Hx.
    + intros x y Hx Hy. rewrite <- app_assoc in Hx, Hy. by apply Hcons.
    + intros x Hx. apply Hexist. by right.
    + done.
    + exists fc'. split; [done|]. split; [done|]. split.
      * intros x Hx. apply Hrec. by rewrite <- app_assoc.
      * intros g Hg Hne.
        rewrite Hframe; [|done|intros x Hx; apply Hne; by right].
        unfold fc1. cbn [files_info]. rewrite get_put_other; auto.
        apply Hne. left.
Qed.

Lemma check_range_all_true (nm : Names) (disk : Disk) (fc : FileChecker)
    (files : list string) :
  (∀ f, f ∈ files → check nm disk fc f = (inl true, [])) →
  check_range nm disk fc files true = (inl true, []).
Proof.
  induction files as [|f files IH]; intros Hall; [done|].
  cbn [check_range]. rewrite Hall by left. cbn.
  rewrite IH; [done|]. intros g Hg. apply Hall. by right.
Qed.

(** X15: for a range of existing files whose escaped names hold no ['.']
    and in which files of one name have one size, [update] leaves an
    object that holds the present size of every file of the range, and
    writes that tree once, at the end, to the path of the object.  [check]
    of the same range then succeeds without logging, and the outcome of
    [check] is as before for every file recorded under another name. *)
Theorem update_range_then_check (nm : Names) (disk : Disk) (fc : FileChecker)
    (files : list string) :
  (∀ f, f ∈ files → dot_free (record_name nm f)) →
  (∀ f g, f ∈ files → g ∈ files →
          record_name nm f = record_name nm g → disk !! f = disk !! g) →
  (∀ f, f ∈ files → ∃ size, disk !! f = Some size ∧ (size < 2 ^ 64)%N) →
  ∃ fc',
    update_range nm disk fc files =
      (fc', None, [write_xml (files_info_path fc) (files_info fc')]) ∧
    files_info_path fc' = files_info_path fc ∧
    (∀ f, f ∈ files → recorded nm disk fc' f) ∧
    check_range nm disk fc' files true = (inl true, []) ∧
    (∀ g disk', dot_free (record_name nm g) →
       (∀ f, f ∈ files → record_name nm f ≠ record_name nm g) →
       get_optional (size_key nm g) (files_info fc') =
         get_optional (size_key nm g) (files_info fc) ∧
       check nm disk' fc' g = check nm disk' fc g).
Proof.
  intros Hfree Hcons Hexist.
  destruct (update_trees_records nm disk files [] fc)
    as (fc' & Hrun & Hpath & Hrec & Hframe); try done.
  { intros f Hf. destruct (Hexist f Hf) as (size & -> & _). by eexists. }
  { intros f Hf. by apply elem_of_nil in Hf. }
  exists fc'. unfold update_range, saveTree. rewrite Hrun, Hpath.
  split; [done|]. split; [done|]. split; [exact Hrec|]. split.
  - apply check_range_all_true. intros f Hf.
    destruct (Hrec f Hf) as (size & Hsize & Hget).
    destruct (Hexist f Hf) as (size' & Hsize' & Hlt).
    rewrite Hsize in Hsize'. injection Hsize' as <-.
    rewrite (check_against _ _ _ _ size) by done.
    by rewrite Hsize, decide_True.
  - intros g disk' Hg Hne. split; [by apply Hframe|].
    unfold check. by rewrite Hframe.
Qed.

Lemma update_range_then_check_witness :
  ∃ fc',
    update_range plain_names {["a" := 1234%N; "b" := 0%N]}
      (new_FileChecker "sizes.xml" None) ["a"; "b"; "a"] =
      (fc', None, [write_xml "sizes.xml" (files_info fc')]) ∧
    get_optional (size_key plain_names "a") (files_info fc') = Some "1234" ∧
    get_optional (size_key plain_names "b") (files_info fc') = Some "0" ∧
    check_range plain_names {["a" := 1234%N; "b" := 0%N]} fc' ["a"; "b"; "a"] true =
      (inl true, []).
Proof.
  destruct (update_range_then_check plain_names {["a" := 1234%N; "b" := 0%N]}
              (new_FileChecker "sizes.xml" None) ["a"; "b"; "a"])
    as (fc' & Hup & _ & Hrec & Hcheck & _).
  - intros f Hin.
    repeat (apply elem_of_cons in Hin as [->|Hin]; [reflexivity|]).
    by apply elem_of_nil in Hin.
  - intros f g Hf Hg. cbn. by intros ->.
  - intros f Hin.
    repeat (apply elem_of_cons in Hin as [->|Hin];
            [eexists; split; [reflexivity|reflexivity]|]).
    by apply elem_of_nil in Hin.
  - exists fc'. split; [exact Hup|]. split; [|split; [|exact Hcheck]].
    + destruct (Hrec "a") as (size & Hsize & ->); [left|].
      vm_compute in Hsize. by injection Hsize as <-.
    + destruct (Hrec "b") as (size & Hsize & ->); [right; left|].
      vm_compute in Hsize. by injection Hsize as <-.
Defined.

Lemma update_trees_exist (nm : Names) (disk : Disk) (files : list string) :
  ∀ fc, (∀ f, f ∈ files → is_Some (disk !! f)) →
  ∃ fc', update_trees nm disk fc files = (fc', None).
Proof.
  induction files as [|f files IH]; intros fc Hall; [by eexists|].
  destruct (Hall f) as [size Hsize]; [left|].
  cbn [update_trees]. unfold updateTree. rewrite Hsize.
  apply IH. intros g Hg. apply Hall. by right.
Qed.

(** X16: [update] stops at the first file that does not exist, with the
    exception of [getSize], before [saveTree]: nothing is written, but the
    object is the one [updateTree] made of the files before that one.  When
    their escaped names hold no ['.'] and files of one name have one size,
    it holds the present size of every one of them, the first as well as
    the last, and every record under another name is as before; no file
    after the missing one is looked at.  For a single missing file the
    object is unchanged. *)
Theorem update_range_missing_file (nm : Names) (disk : Disk) (fc : FileChecker)
    (pre post : list string) (bad : string) :
  (∀ f, f ∈ pre → is_Some (disk !! f)) →
  disk !! bad = None →
  ∃ fc',
    update_trees nm disk fc pre = (fc', None) ∧
    update_range nm disk fc (pre ++ bad :: post) =
      (fc', Some (file_not_found bad), []) ∧
    files_info_path fc' = files_info_path fc ∧
    ((∀ f, f ∈ pre → dot_free (record_name nm f)) →
     (∀ f g, f ∈ pre → g ∈ pre →
             record_name nm f = record_name nm g → disk !! f = disk !! g) →
     (∀ f, f ∈ pre → recorded nm disk fc' f) ∧
     (∀ g, dot_free (record_name nm g) →
           (∀ f, f ∈ pre → record_name nm f ≠ record_name nm g) →
           get_optional (size_key nm g) (files_info fc') =
           get_optional (size_key nm g) (files_info fc))) ∧
    (∀ pre' f size, pre = pre' ++ [f] → disk !! f = Some size →
       get_optional (size_key nm f) (files_info fc') = Some (to_string size)) ∧
    update nm disk fc bad = (fc, Some (file_not_found bad), []).
Proof.
  intros Hall Hbad.
  destruct (update_trees_exist nm disk pre fc Hall) as [fc' Hpre].
  exists fc'. split; [done|]. split; [|split; [|split; [|split]]].
  - unfold update_range. rewrite update_trees_app, Hpre.
    cbn [update_trees]. unfold updateTree. by rewrite Hbad.
  - clear Hall. revert fc Hpre.
    induction pre as [|f pre IH]; intros fc Hpre; [by injection Hpre as <-|].
    cbn [update_trees] in Hpre. unfold updateTree in Hpre.
    destruct (disk !! f); [|done]. by rewrite (IH _ Hpre).
  - intros Hfree Hcons.
    destruct (update_trees_records nm disk pre [] fc)
      as (fc2 & Hrun & _ & Hrec & Hframe); try done.
    { intros f Hf. by apply elem_of_nil in Hf. }
    rewrite Hpre in Hrun. injection Hrun as <-. by split.
  - intros pre' f size -> Hsize.
    rewrite update_trees_app in Hpre.
    destruct (update_trees nm disk fc pre') as [fc1 [e|]]; [done|].
    cbn [update_trees] in Hpre. unfold updateTree in Hpre.
    rewrite Hsize in Hpre. injection Hpre as <-. apply get_put_same.
  - unfold update, updateTree. by rewrite Hbad.
Qed.

Lemma update_range_missing_file_witness :
  ∃ fc',
    update_range plain_names {["a" := 1234%N; "b" := 0%N; "c" := 7%N; "d" := 9%N]}
      (new_FileChecker "sizes.xml" None) ["a"; "b"; "c"; "gone"; "d"] =
      (fc', Some (file_not_found "gone"), []) ∧
    get_optional (size_key plain_names "a") (files_info fc') = Some "1234" ∧
    get_optional (size_key plain_names "b") (files_info fc') = Some "0" ∧
    get_optional (size_key plain_names "c") (files_info fc') = Some "7" ∧
    get_optional (size_key plain_names "d") (files_info fc') = None.
Proof.
  destruct (update_range_missing_file plain_names
              {["a" := 1234%N; "b" := 0%N; "c" := 7%N; "d" := 9%N]}
              (new_FileChecker "sizes.xml" None) ["a"; "b"; "c"] ["d"] "gone")
    as (fc' & Hpre & Hup & _ & Hall & _ & _).
  - intros f Hin.
    repeat (apply elem_of_cons in Hin as [->|Hin]; [by eexists|]).
    by apply elem_of_nil in Hin.
  - reflexivity.
  - destruct Hall as [Hrec Hframe].
    + intros f Hin.
      repeat (apply elem_of_cons in Hin as [->|Hin]; [reflexivity|]).
      by apply elem_of_nil in Hin.
    + intros f g Hf Hg. cbn. by intros ->.
    + exists fc'. split; [exact Hup|].
      split; [|split; [|split]].
      * destruct (Hrec "a") as (size & Hsize & ->); [left|].
        vm_compute in Hsize. by injection Hsize as <-.
      * destruct (Hrec "b") as (size & Hsize & ->); [right; left|].
        vm_compute in Hsize. by injection Hsize as <-.
      * destruct (Hrec "c") as (size & Hsize & ->); [do 2 right; left|].
        vm_compute in Hsize. by injection Hsize as <-.
      * rewrite (Hframe "d"); [reflexivity|reflexivity|].
        intros f Hin.
        repeat (apply elem_of_cons in Hin as [->|Hin]; [discriminate|]).
        by apply elem_of_nil in Hin.
Defined.

(** X17: a file that was never recorded passes [check] whatever is on
    disk, even if it does not exist: so for every file in a ledger that
    was created without a stored tree, and after any update, complete or
    not, of files with other names. *)
Theorem unrecorded_file_passes (nm : Names) (disk disk' : Disk) (path : string)
    (files : list string) (g : string) :
  (∀ f, f ∈ files → dot_free (record_name nm f)) →
  dot_free (record_name nm g) →
  (∀ f, f ∈ files → record_name nm f ≠ record_name nm g) →
  check nm disk' (new_FileChecker path None) g = (inl true, []) ∧
  check nm disk' (update_range nm disk (new_FileChecker path None) files).1.1 g =
    (inl true, []).
Proof.
  intros Hfree Hg Hne.
  assert (Hnew : check nm disk' (new_FileChecker path None) g = (inl true, [])).
  { unfold check, get_optional. rewrite size_key_path by done. done. }
  split; [done|].
  assert (Hframe : ∀ fs fc,
            (∀ f, f ∈ fs → dot_free (record_name nm f)) →
            (∀ f, f ∈ fs → record_name nm f ≠ record_name nm g) →
            get_optional (size_key nm g)
              (files_info (update_trees nm disk fc fs).1) =
            get_optional (size_key nm g) (files_info fc)).
  { induction fs as [|f fs IH]; intros fc Hfs Hns; [done|].
    cbn [update_trees]. unfold updateTree.
    destruct (disk !! f) as [size|]; [|done].
    rewrite IH by (intros x Hx; first [apply Hfs|apply Hns]; by right).
    cbn [files_info]. apply get_put_other; [apply Hfs; left|done|apply Hns; left]. }
  unfold update_range.
  specialize (Hframe files (new_FileChecker path None) Hfree Hne).
  destruct (update_trees nm disk (new_FileChecker path None) files) as [fc' [e|]];
    cbn in *; unfold check; rewrite Hframe; exact Hnew.
Qed.

Lemma unrecorded_file_passes_witness :
  check plain_names ∅
    (update_range plain_names {["a" := 1234%N; "b" := 0%N]}
       (new_FileChecker "sizes.xml" None) ["a"; "b"]).1.1 "c" =
  (inl true, []).
Proof.
  apply (unrecorded_file_passes plain_names {["a" := 1234%N; "b" := 0%N]} ∅
           "sizes.xml" ["a"; "b"] "c").
  - intros f Hin.
    repeat (apply elem_of_cons in Hin as [->|Hin]; [reflexivity|]).
    by apply elem_of_nil in Hin.
  - reflexivity.
  - intros f Hin.
    repeat (apply elem_of_cons in Hin as [->|Hin]; [discriminate|]).
    by apply elem_of_nil in Hin.
Defined.
